(** * Segmented, resumable re-encoding: the run controller of [reencode.py]

    A shallow embedding of [PythonCustomScripts/reencode.py] and the
    properties its specification states about it.

    Modelling conventions.
    - A Python [float] is an exact rational ([Q]).  Comparisons are the
      rational ones; equality of durations is [==] ([Qeq]).  The segment
      length reaches [calculate_segments] as a Python [int] (argparse
      [type=int]) and is injected into [Q].
    - A [while] loop is a [Fixpoint] on a fuel argument that returns [None]
      when the fuel runs out; every statement about a result comes with a
      proof that the fuel provided is enough.
    - The file system is a finite map from paths to files; external tools
      (ffprobe, ffmpeg) and the operating system are oracles collected in
      records, one field per call site of the source. *)

From Stdlib Require Import ZArith QArith Qabs Qround Lqa Lia Sorted.
From stdpp Require Import gmap list fin_maps.

Local Open Scope Q_scope.

(** ** Python's [min] and [max] on two arguments

    [min(a, b)] keeps [a] unless [b < a]; [max(a, b)] keeps [a] unless
    [b > a]. *)

Definition py_min (a b : Q) : Q := if Qlt_le_dec b a then b else a.
Definition py_max (a b : Q) : Q := if Qlt_le_dec a b then b else a.

(** ** Segment planner: [calculate_segments] *)

Module Planner.

(** The dictionary [{"start": .., "end": .., "duration": ..}]. *)
Record segment : Type := Segment {
  seg_start : Q;
  seg_end : Q;
  seg_duration : Q
}.

(** Segments shorter than this at the tail are not emitted. *)
Definition MIN_SEGMENT_DURATION : Q := 0.01.

(** The body of the [while current_time < total_duration] loop. *)
Fixpoint calculate_segments_loop (fuel : nat)
    (total_duration segment_length current_time : Q) : option (list segment) :=
  if Qlt_le_dec current_time total_duration then
    match fuel with
    | O => None
    | S fuel' =>
        let start_time := current_time in
        let end_time := py_min (current_time + segment_length) total_duration in
        let segment_duration := end_time - start_time in
        if Qlt_le_dec segment_duration MIN_SEGMENT_DURATION then Some []
        else
          cons (Segment start_time end_time segment_duration)
            <$> calculate_segments_loop fuel' total_duration segment_length
                  (current_time + segment_length)
    end
  else Some [].

Definition calculate_segments_fuel (fuel : nat)
    (total_duration segment_length : Q) : option (list segment) :=
  if Qlt_le_dec 0 total_duration then
    if Qlt_le_dec 0 segment_length then
      calculate_segments_loop fuel total_duration segment_length 0
    else Some []
  else Some [].

(** Number of loop iterations that is always enough: the loop body runs
    for [current_time = 0, L, 2L, ...] while [current_time < total]. *)
Definition plan_fuel (total_duration segment_length : Q) : nat :=
  Z.to_nat (Qceiling (total_duration / segment_length)).

Definition calculate_segments (total_duration segment_length : Q)
    : option (list segment) :=
  calculate_segments_fuel (plan_fuel total_duration segment_length)
    total_duration segment_length.

(** *** The properties of a plan *)










End Planner.

(** ** Files, paths and media probing *)

Module Probe.

Inductive stream_type : Type := Video | Audio.

(** What [data["format"]["duration"]] holds in ffprobe's JSON output. *)
Inductive duration_field : Type :=
  | DurationMissing                (* no "format" or no "duration" key *)
  | DurationUnparsable             (* [float(..)] raises ValueError/TypeError *)
  | DurationValue (d : Q).

Record ffprobe_data : Type := FfprobeData {
  format_duration : duration_field;
  streams : nat                    (* [len(data["streams"])] *)
}.

(** The names the run works with.  Segment files are numbered from 1:
    [<stem>_seg<n:04d><ext>] and the same name with the [.part] suffix.
    The names are taken to be distinct: the destination and the manifest
    lie outside the segments directory, as in the default layout. *)
Inductive path : Type :=
  | InputFile
  | FinalOutput
  | Filelist                       (* [<stem>_filelist_temp.txt] *)
  | SegmentsDir
  | RerunCommand                   (* [rerun_command.txt] in the segments dir *)
  | SegmentFinal (segment_number : nat)
  | SegmentPart (segment_number : nat).

Inductive file : Type :=
  | MediaFile (video audio : option ffprobe_data)
  | TextFile
  | ManifestFile (entries : list path)
  | Directory.

#[global] Instance path_eq_dec : EqDecision path.
Proof. solve_decision. Defined.

Definition path_encode (p : path) : nat * nat :=
  match p with
  | InputFile => (0, 0)
  | FinalOutput => (1, 0)
  | Filelist => (2, 0)
  | SegmentsDir => (3, 0)
  | RerunCommand => (4, 0)
  | SegmentFinal n => (5, n)
  | SegmentPart n => (6, n)
  end%nat.

Definition path_decode (c : nat * nat) : path :=
  match c with
  | (0, _) => InputFile
  | (1, _) => FinalOutput
  | (2, _) => Filelist
  | (3, _) => SegmentsDir
  | (4, _) => RerunCommand
  | (5, n) => SegmentFinal n
  | (_, n) => SegmentPart n
  end%nat.

#[global] Instance path_countable : Countable path.
Proof. by apply (inj_countable' path_encode path_decode); intros []. Defined.

(** [get_stream_info]: ffprobe's parsed output for the first stream of the
    given kind, [None] when ffprobe fails (missing file, not a media file,
    no such stream, timeout, unparsable output). *)
Definition get_stream_info (f : option file) (stream : stream_type)
    : option ffprobe_data :=
  match f with
  | Some (MediaFile video audio) =>
      match stream with Video => video | Audio => audio end
  | _ => None
  end.

(** [float(data["format"]["duration"])] under the guards of the source. *)
Definition parsed_duration (data : option ffprobe_data) : option Q :=
  match data with
  | Some d =>
      match format_duration d with
      | DurationValue q => Some q
      | DurationMissing | DurationUnparsable => None
      end
  | None => None
  end.

(** The value returned when no duration can be determined. *)
Definition UNKNOWN_DURATION : Q := -1.

Definition get_file_duration (f : option file) : Q :=
  match parsed_duration (get_stream_info f Video) with
  | Some d => d
  | None =>
      match parsed_duration (get_stream_info f Audio) with
      | Some d => d
      | None => UNKNOWN_DURATION
      end
  end.

(** Whether [get_file_duration] needs the second (audio) probe. *)
Definition video_probe_suffices (f : option file) : bool :=
  match parsed_duration (get_stream_info f Video) with
  | Some _ => true
  | None => false
  end.

(** [has_audio_stream], on the result of its [get_stream_info] call. *)
Definition has_audio_stream (data : option ffprobe_data) : bool :=
  match data with
  | Some d => bool_decide (0 < streams d)%nat
  | None => false
  end.

End Probe.

(** ** The world the script runs in, and the monad of its effects *)

Module Effects.
Import Probe.

(** The two process-wide cancellation flags ([threading.Event]s). *)
Record flags : Type := Flags {
  stop_requested : bool;
  force_stop_requested : bool
}.

(** [signal_handler]: the first Ctrl+C requests a graceful stop, the second
    an immediate one, later ones change nothing. *)
Definition signal_handler (f : flags) : flags :=
  if negb (stop_requested f) then Flags true (force_stop_requested f)
  else if negb (force_stop_requested f) then Flags (stop_requested f) true
  else f.

(** [n] Ctrl+C signals delivered in a row. *)
Definition deliver (n : nat) (f : flags) : flags := Nat.iter n signal_handler f.

(** What the script does to the outside, in the order it does it. *)
Inductive event : Type :=
  | EvMkdir
  | EvWrite (p : path)
  | EvExists (p : path)
  | EvProbe (p : path) (stream : stream_type)
  | EvUnlink (p : path)
  | EvMove (src dst : path)
  | EvRmtree
  | EvEncode (segment_number : nat)
  | EvSegmentFailed (segment_number : nat)  (* "Segment n failed or was stopped." *)
  | EvMoveFailed (segment_number : nat)     (* "Error: Failed to move .." *)
  | EvConcatenate (files : list path)
  | EvPopen (output : path)
  | EvSleep
  | EvWriteQuit
  | EvWait (timeout elapsed : Q) (expired : bool)
  | EvExited (code : Z)             (* [process.returncode] is set *)
  | EvInterrupt
  | EvTerminate
  | EvKill
  | EvJoin
  | EvError                         (* the [except Exception] report *)
  | EvWarn.

Record world : Type := World {
  fs : gmap path file;
  cancellation : flags;
  trace : list event
}.

(** Python exceptions, as far as the handlers of the source tell them
    apart.  [FileNotFoundError] is a subclass of [OSError]. *)
Inductive exn : Type := FileNotFoundError | OSError | ValueError | RuntimeError.

(** How a computation ends: with a value, with [sys.exit(code)]
    ([SystemExit], which no [except Exception] catches), or with an
    exception. *)
Inductive result (A : Type) : Type :=
  | Ok (a : A)
  | Exit (code : Z)
  | Raise (e : exn).
Arguments Ok {A} a.
Arguments Exit {A} code.
Arguments Raise {A} e.

(** [None]: the computation does not finish within the observations the
    environment provides (a child that never exits and is never stopped). *)
Definition M (A : Type) : Type := world -> option (result A * world).

Definition ret {A} (a : A) : M A := fun w => Some (Ok a, w).

Definition bind {A B} (m : M A) (f : A -> M B) : M B := fun w =>
  match m w with
  | None => None
  | Some (Ok a, w') => f a w'
  | Some (Exit c, w') => Some (Exit c, w')
  | Some (Raise e, w') => Some (Raise e, w')
  end.

Declare Scope M_scope.
Delimit Scope M_scope with M.
Notation "x ← y ; z" := (bind y (fun x => z))
  (at level 20, y at level 100, z at level 200, only parsing) : M_scope.
Notation "y ;; z" := (bind y (fun _ => z))
  (at level 100, z at level 200, only parsing, right associativity) : M_scope.
#[local] Open Scope M_scope.

Definition sys_exit {A} (code : Z) : M A := fun w => Some (Exit code, w).
Definition raise {A} (e : exn) : M A := fun w => Some (Raise e, w).

Definition log (e : event) : M unit :=
  fun w => Some (Ok tt, World (fs w) (cancellation w) (trace w ++ [e])).

Definition read_fs : M (gmap path file) := fun w => Some (Ok (fs w), w).

Definition write_fs (f : gmap path file -> gmap path file) : M unit :=
  fun w => Some (Ok tt, World (f (fs w)) (cancellation w) (trace w)).

Definition read_flags : M flags := fun w => Some (Ok (cancellation w), w).

Definition signals_arrive (n : nat) : M unit :=
  fun w => Some (Ok tt, World (fs w) (deliver n (cancellation w)) (trace w)).

(** [try: m  except <classes accepted by catches>: handler]. *)
Definition try_except {A} (m : M A) (catches : exn -> bool) (handler : exn -> M A)
    : M A :=
  fun w =>
    match m w with
    | Some (Raise e, w') => if catches e then handler e w' else Some (Raise e, w')
    | other => other
    end.

(** [try: m  finally: cleanup].  The cleanup runs however [m] ends, and an
    exit or exception of the cleanup replaces the outcome of [m]. *)
Definition try_finally {A} (m : M A) (cleanup : M unit) : M A :=
  fun w =>
    match m w with
    | None => None
    | Some (r, w') =>
        match cleanup w' with
        | None => None
        | Some (Ok _, w'') => Some (r, w'')
        | Some (Exit c, w'') => Some (Exit c, w'')
        | Some (Raise e, w'') => Some (Raise e, w'')
        end
    end.

(** [w'] is [w] after the events [evs]. *)
Definition extends (w w' : world) (evs : list event) : Prop :=
  trace w' = trace w ++ evs.

(** From [w] to [w'] only events in [P] were added and only files at paths
    in [Q] were created, changed or removed. *)
Definition changes (P : event -> Prop) (Q : path -> Prop) (w w' : world) : Prop :=
  (exists evs, trace w' = trace w ++ evs /\ Forall P evs)
  /\ (forall p, ~ Q p -> fs w' !! p = fs w !! p)
  /\ (stop_requested (cancellation w) = true ->
      stop_requested (cancellation w') = true).

(** Every finished run of [m] is related by [R]. *)
Definition guarantees {A} (R : world -> world -> Prop) (m : M A) : Prop :=
  forall w r w', m w = Some (r, w') -> R w w'.

(** The events of one [get_file_duration] call on a file. *)
Definition probe_events (p : path) (f : option file) : list event :=
  if video_probe_suffices f then [EvProbe p Video]
  else [EvProbe p Video; EvProbe p Audio].

(** File-system primitives. *)
Definition path_exists (p : path) : M bool :=
  log (EvExists p);; fs ← read_fs; ret (bool_decide (is_Some (fs !! p))).

(** [Path.unlink(missing_ok=True)]. *)
Definition unlink_missing_ok (p : path) : M unit :=
  log (EvUnlink p);; write_fs (delete p).

(** One [get_stream_info] call on [p]. *)
Definition probe (p : path) (stream : stream_type) : M (option ffprobe_data) :=
  log (EvProbe p stream);; fs ← read_fs; ret (get_stream_info (fs !! p) stream).

(** [get_file_duration(p)]: the video probe, then the audio probe if the
    first gave no duration. *)
Definition probe_duration (p : path) : M Q :=
  v ← probe p Video;
  match parsed_duration v with
  | Some d => ret d
  | None =>
      a ← probe p Audio;
      match parsed_duration a with
      | Some d => ret d
      | None => ret UNKNOWN_DURATION
      end
  end.

End Effects.

(** ** Process supervisor: [run_ffmpeg_command]

    The child is an oracle: the record [invocation] holds what each call of
    the source observes.  Time is a logical clock: a [process.wait] with a
    timeout either collects the exit status within the timeout or expires
    after exactly the timeout.  A [kill()] that directly follows a
    [poll()] which saw the child alive is taken as one step, and the
    handlers themselves do not fail. *)

Module Supervisor.
Import Probe Effects.
#[local] Open Scope M_scope.

Definition FFMPEG_SHUTDOWN_TIMEOUT_Q : Q := 10.
Definition FFMPEG_SHUTDOWN_TIMEOUT_SIG : Q := 8.
Definition FFMPEG_SHUTDOWN_TIMEOUT_TERM : Q := 5.

(** An exception raised by an operation on a process that was started.
    ([FileNotFoundError] comes from [Popen] only.) *)
Inductive fault : Type := FaultOSError | FaultValueError | FaultOther.

Definition fault_exn (f : fault) : exn :=
  match f with
  | FaultOSError => OSError
  | FaultValueError => ValueError
  | FaultOther => RuntimeError
  end.

Inductive spawn_outcome : Type :=
  | Spawned
  | SpawnNotFound                  (* [Popen] raises FileNotFoundError *)
  | SpawnError (f : fault).        (* [Popen] raises something else *)

(** How the child answers a stop request: it exits [after_ms] milliseconds
    later with [code], or it ignores the request. *)
Inductive reaction : Type :=
  | Exits (after_ms : N) (code : Z)
  | Hangs.

(** One iteration of the polling loop, as the environment decides it: the
    Ctrl+C signals delivered since the previous iteration, an exception
    raised in the iteration, and what [process.poll()] returns. *)
Record tick : Type := Tick {
  tick_signals : nat;
  tick_fault : option fault;
  tick_status : option Z
}.

(** The child's answers along the shutdown ladder, one field per call of
    the source: does the operation raise, what does the following
    [process.wait(timeout=..)] see, and what does [process.poll()] return
    after that wait timed out. *)
Record ladder : Type := Ladder {
  write_quit_fault : option fault;
  after_quit : reaction;
  status_after_quit : option Z;
  interrupt_fault : option fault;
  after_interrupt : reaction;
  status_after_interrupt : option Z;
  terminate_fault : option fault;
  after_terminate : reaction;
  status_after_terminate : option Z
}.

(** Everything the environment decides about one ffmpeg invocation. *)
Record invocation : Type := Invocation {
  spawn : spawn_outcome;
  ticks : list tick;
  shutdown : ladder;
  status_in_handler : option Z;    (* [process.poll()] in [except Exception] *)
  output_written : option file     (* what the child leaves at its output path *)
}.

Definition seconds (ms : N) : Q := inject_Z (Z.of_N ms) / 1000.

(** [process.wait(timeout=timeout)]: the exit status if the child exits in
    time, [None] for [TimeoutExpired]. *)
Definition wait (timeout : Q) (r : reaction) : M (option Z) :=
  match r with
  | Exits after_ms code =>
      if Qlt_le_dec timeout (seconds after_ms)
      then log (EvWait timeout timeout true);; ret None
      else
        log (EvWait timeout (seconds after_ms) false);;
        log (EvExited code);;
        ret (Some code)
  | Hangs => log (EvWait timeout timeout true);; ret None
  end.

(** An operation that either raises or happens (and is logged). *)
Definition attempt (ev : event) (f : option fault) : M unit :=
  match f with
  | Some x => raise (fault_exn x)
  | None => log ev
  end.

(** [process.poll()] with the answer [status]. *)
Definition poll (status : option Z) : M (option Z) :=
  match status with
  | Some code => log (EvExited code);; ret (Some code)
  | None => ret None
  end.

(** Stage (d): [process.kill()] if the child is still alive. *)
Definition stage_kill (l : ladder) : M (option Z) :=
  status ← poll (status_after_terminate l);
  match status with
  | Some code => ret (Some code)
  | None => log EvKill;; ret None
  end.

(** Stage (c): [process.terminate()] and a wait of 5 seconds. *)
Definition stage_terminate (l : ladder) : M (option Z) :=
  status ← poll (status_after_interrupt l);
  match status with
  | Some code => ret (Some code)
  | None =>
      attempt EvTerminate (terminate_fault l);;
      r ← wait FFMPEG_SHUTDOWN_TIMEOUT_TERM (after_terminate l);
      match r with
      | Some code => ret (Some code)
      | None => stage_kill l
      end
  end.

(** Stage (b): the interrupt signal and a wait of 8 seconds. *)
Definition stage_interrupt (l : ladder) : M (option Z) :=
  status ← poll (status_after_quit l);
  match status with
  | Some code => ret (Some code)
  | None =>
      attempt EvInterrupt (interrupt_fault l);;
      r ← wait FFMPEG_SHUTDOWN_TIMEOUT_SIG (after_interrupt l);
      match r with
      | Some code => ret (Some code)
      | None => stage_terminate l
      end
  end.

(** Stage (a) and the escalation: ['q\n'] on stdin and a wait of 10 seconds;
    [OSError], [ValueError] and [TimeoutExpired] lead to stage (b).  The
    result is [process.returncode] afterwards. *)
Definition graceful_stop (l : ladder) : M (option Z) :=
  r ← try_except
        (attempt EvWriteQuit (write_quit_fault l);;
         wait FFMPEG_SHUTDOWN_TIMEOUT_Q (after_quit l))
        (fun e => match e with OSError | FileNotFoundError | ValueError => true
                            | RuntimeError => false end)
        (fun _ => ret None);
  match r with
  | Some code => ret (Some code)
  | None => stage_interrupt l
  end.

(** [while process.poll() is None: ...]; the result is [process.returncode]
    when the loop is left. *)
Fixpoint poll_loop (l : ladder) (ts : list tick) : M (option Z) :=
  match ts with
  | [] => fun _ => None
  | t :: rest =>
      signals_arrive (tick_signals t);;
      match tick_fault t with
      | Some f => raise (fault_exn f)
      | None =>
          status ← poll (tick_status t);
          match status with
          | Some code => ret (Some code)
          | None =>
              fl ← read_flags;
              if force_stop_requested fl then log EvKill;; ret None
              else if stop_requested fl then graceful_stop l
              else log EvSleep;; poll_loop l rest
          end
      end
  end.

(** The [try] body once [Popen] has succeeded. *)
Definition supervise (inv : invocation) : M bool :=
  returncode ← poll_loop (shutdown inv) (ticks inv);
  log EvJoin;;
  ret (bool_decide (returncode = Some 0%Z)).

(** [except Exception]: kill the child if it is still alive, report failure. *)
Definition on_exception (inv : invocation) : M bool :=
  log EvError;;
  status ← poll (status_in_handler inv);
  match status with
  | None => log EvKill
  | Some _ => ret tt
  end;;
  ret false.

(** The child leaves its output at [output]. *)
Definition child_output (output : path) (inv : invocation)
    (files : gmap path file) : gmap path file :=
  match output_written inv with
  | Some f => <[output := f]> files
  | None => files
  end.

Definition run_ffmpeg_command (output : path) (inv : invocation) : M bool :=
  match spawn inv with
  | SpawnNotFound => ret false
  | SpawnError _ => ret false
  | Spawned =>
      log (EvPopen output);;
      write_fs (child_output output inv);;
      try_except (supervise inv) (fun _ => true) (fun _ => on_exception inv)
  end.

(** The events of one supervised invocation that writes to [output]. *)
Definition supervisor_event (output : path) (ev : event) : Prop :=
  match ev with
  | EvPopen p => p = output
  | EvSleep | EvWriteQuit | EvWait _ _ _ | EvExited _ | EvInterrupt
  | EvTerminate | EvKill | EvJoin | EvError => True
  | _ => False
  end.

(** The world in which the supervision starts: the child was spawned. *)
Definition spawned (output : path) (inv : invocation) (w : world) : world :=
  World (child_output output inv (fs w)) (cancellation w)
    (trace w ++ [EvPopen output]).

(** Seconds spent in [process.wait] calls. *)
Fixpoint time_waited (tr : list event) : Q :=
  match tr with
  | [] => 0
  | EvWait _ elapsed _ :: rest => elapsed + time_waited rest
  | _ :: rest => time_waited rest
  end.

(** The rung of the ladder an event belongs to. *)
Definition stage_rank (e : event) : option nat :=
  match e with
  | EvWriteQuit => Some 0%nat
  | EvInterrupt => Some 1%nat
  | EvTerminate => Some 2%nat
  | EvKill => Some 3%nat
  | _ => None
  end.

(** The rungs attempted, in the order of the trace. *)
Definition stage_actions (tr : list event) : list nat := omap stage_rank tr.

(** A wait with the given timeout ran into [TimeoutExpired]. *)
Definition timed_out (timeout : Q) (tr : list event) : Prop :=
  EvWait timeout timeout true ∈ tr.

(** The wait on [r] with the given timeout expires. *)
Definition outlasts (timeout : Q) (r : reaction) : Prop :=
  match r with
  | Hangs => True
  | Exits after_ms _ => timeout < seconds after_ms
  end.

(** A child that answers no stop request, with no operation failing. *)
Definition unresponsive (l : ladder) : Prop :=
  write_quit_fault l = None
  /\ outlasts FFMPEG_SHUTDOWN_TIMEOUT_Q (after_quit l)
  /\ status_after_quit l = None
  /\ interrupt_fault l = None
  /\ outlasts FFMPEG_SHUTDOWN_TIMEOUT_SIG (after_interrupt l)
  /\ status_after_interrupt l = None
  /\ terminate_fault l = None
  /\ outlasts FFMPEG_SHUTDOWN_TIMEOUT_TERM (after_terminate l)
  /\ status_after_terminate l = None.

(** The whole ladder, every wait expiring. *)
Definition full_ladder : list event :=
  [EvWriteQuit;
   EvWait FFMPEG_SHUTDOWN_TIMEOUT_Q FFMPEG_SHUTDOWN_TIMEOUT_Q true;
   EvInterrupt;
   EvWait FFMPEG_SHUTDOWN_TIMEOUT_SIG FFMPEG_SHUTDOWN_TIMEOUT_SIG true;
   EvTerminate;
   EvWait FFMPEG_SHUTDOWN_TIMEOUT_TERM FFMPEG_SHUTDOWN_TIMEOUT_TERM true;
   EvKill].

(** The properties of the events [evs] of one descent of the ladder that
    ends with [r]. *)
Definition ladder_post (l : ladder) (r : result (option Z)) (evs : list event)
    : Prop :=
  (* the rungs are attempted in the order quit, interrupt, terminate, kill *)
  StronglySorted lt (stage_actions evs)
  (* a later rung only after the one before it failed or its wait expired *)
  /\ (1%nat ∈ stage_actions evs ->
      is_Some (write_quit_fault l) \/ timed_out FFMPEG_SHUTDOWN_TIMEOUT_Q evs)
  /\ (2%nat ∈ stage_actions evs ->
      1%nat ∈ stage_actions evs /\ timed_out FFMPEG_SHUTDOWN_TIMEOUT_SIG evs)
  /\ (3%nat ∈ stage_actions evs ->
      2%nat ∈ stage_actions evs /\ timed_out FFMPEG_SHUTDOWN_TIMEOUT_TERM evs)
  (* the time spent waiting *)
  /\ time_waited evs
     <= FFMPEG_SHUTDOWN_TIMEOUT_Q + FFMPEG_SHUTDOWN_TIMEOUT_SIG
        + FFMPEG_SHUTDOWN_TIMEOUT_TERM
  (* when every wait expires the kill is reached *)
  /\ (unresponsive l -> r = Ok None /\ evs = full_ladder).

(** How [process.returncode], the result [r] of the polling loop or of the
    ladder, shows in the events. *)
Definition status_post (r : result (option Z)) (evs : list event) : Prop :=
  (EvError ∉ evs)
  /\ match r with
     | Ok returncode =>
         ((returncode = Some 0%Z) <-> (EvExited 0 ∈ evs))
         /\ (EvKill ∈ evs -> returncode = None)
     | Exit _ => False
     | Raise _ => forall code, EvExited code ∉ evs
     end.


End Supervisor.

(** ** Run controller: [encode_segment], [concatenate_segments], [main_process] *)

Module Controller.
Import Planner Probe Effects Supervisor.
#[local] Open Scope M_scope.

Inductive codec : Type := H265 | H264.

(** The parsed command line, as far as the control flow reads it. *)
Record config : Type := Config {
  cfg_codec : codec;
  threads : Z;
  x265_params_has_pools : bool;    (* ['pools=' in config.x265_params.lower()] *)
  segment_length : Z;
  keep_segments : bool;
  overwrite_final_output : bool
}.

Inductive manifest_outcome : Type :=
  | ManifestWritten
  | ManifestOpenFails              (* [open] raises, nothing is created *)
  | ManifestWriteFails.            (* a [write] raises after the file was created *)

(** What the environment decides during one run. *)
Record env : Type := Env {
  signals_at_startup : nat;        (* Ctrl+C before the encoding loop *)
  mkdir_fails : bool;
  rerun_write_fails : bool;
  output_unlink_fails : bool;
  segment_ffmpeg : nat -> invocation;       (* by segment number *)
  move_fails : nat -> bool;
  signals_after_segment : nat -> nat;
  signals_before_outcome : nat;
  manifest_write : manifest_outcome;
  concat_ffmpeg : invocation;
  manifest_unlink_fails : bool;
  rmtree_fails : bool
}.

(** *** Startup: lines 445-481 *)

(** [segments_dir.mkdir(parents=True, exist_ok=True)]; [OSError] (also when
    the path exists and is not a directory) ends the run with status 1. *)
Definition make_segments_dir (e : env) : M unit :=
  files ← read_fs;
  match files !! SegmentsDir with
  | Some Directory => if mkdir_fails e then sys_exit 1 else log EvMkdir
  | Some _ => sys_exit 1
  | None =>
      if mkdir_fails e then sys_exit 1
      else log EvMkdir;; write_fs (insert SegmentsDir Directory)
  end.

(** [save_rerun_command]: any exception is reported and swallowed. *)
Definition save_rerun_command (e : env) : M unit :=
  if rerun_write_fails e then log EvWarn
  else log (EvWrite RerunCommand);; write_fs (insert RerunCommand TextFile).

Definition check_final_output (c : config) (e : env) : M unit :=
  present ← path_exists FinalOutput;
  if present then
    if overwrite_final_output c then
      if output_unlink_fails e then sys_exit 1
      else log (EvUnlink FinalOutput);; write_fs (delete FinalOutput)
    else sys_exit 0
  else ret tt.

(** Returns [(input_file_has_audio, total_duration_input)].  (The first
    component only selects the audio options of the encoder command.) *)
Definition prepare (c : config) (e : env) : M (bool * Q) :=
  make_segments_dir e;;
  save_rerun_command e;;
  audio ← probe InputFile Audio;
  total_duration_input ← probe_duration InputFile;
  if Qlt_le_dec 0 total_duration_input then
    check_final_output c e;;
    ret (has_audio_stream audio, total_duration_input)
  else sys_exit 1.

(** The segments directory exists or can be created. *)
Definition segments_dir_available (e : env) (w : world) : Prop :=
  mkdir_fails e = false
  /\ (fs w !! SegmentsDir = None \/ fs w !! SegmentsDir = Some Directory).

(** What a run that stops at the check of the destination does: it makes
    the segments directory, writes the rerun record and probes the input. *)
Definition startup_event (ev : event) : Prop :=
  match ev with
  | EvMkdir | EvWrite RerunCommand | EvWarn | EvProbe InputFile _
  | EvExists FinalOutput => True
  | _ => False
  end.

Definition startup_path (p : path) : Prop := p = SegmentsDir \/ p = RerunCommand.

(** The events before the encoding loop. *)
Definition setup_event (ev : event) : Prop :=
  match ev with
  | EvMkdir | EvWrite RerunCommand | EvWarn | EvProbe _ _ | EvExists _
  | EvUnlink _ => True
  | _ => False
  end.

(** The final and partial segment artifacts. *)
Definition segment_path (p : path) : Prop :=
  match p with
  | SegmentFinal _ | SegmentPart _ => True
  | _ => False
  end.




(** *** Orphaned partial artifacts: lines 483-487 *)

Definition is_orphan (entry : path * file) : bool :=
  match entry with
  | (SegmentPart _, Directory) => false
  | (SegmentPart _, _) => true
  | _ => false
  end.

Fixpoint unlink_all (ps : list path) : M unit :=
  match ps with
  | [] => ret tt
  | p :: rest => unlink_missing_ok p;; unlink_all rest
  end.

Definition cleanup_orphans : M unit :=
  files ← read_fs;
  unlink_all (filter (fun p => is_orphan p = true) (map_to_list files)).*1.

(** *** Planning: lines 489-493 *)

Definition plan (c : config) (total_duration_input : Q) : M (list segment) :=
  match calculate_segments total_duration_input (inject_Z (segment_length c)) with
  | None => fun _ => None
  | Some [] => sys_exit 1
  | Some segs => ret segs
  end.

(** *** Resume scan: lines 495-518 *)

(** The test of line 508. *)
Definition artifact_valid (expected_seg_duration actual_seg_duration : Q) : bool :=
  let duration_tolerance := py_max 0.1 (expected_seg_duration * 0.02) in
  if Qlt_le_dec 0 actual_seg_duration then
    if Qlt_le_dec (Qabs (actual_seg_duration - expected_seg_duration))
         duration_tolerance
    then true else false
  else false.

(** The [for i, seg_info in enumerate(..)] loop from index [i] on, with the
    two variables it updates. *)
Fixpoint resume_scan (segs : list segment) (i : nat)
    (completed_segment_paths : list path) (resume_segment_idx : nat)
    : M (list path * nat) :=
  match segs with
  | [] => ret (completed_segment_paths, resume_segment_idx)
  | seg_info :: rest =>
      let segment_final_file := SegmentFinal (S i) in
      present ← path_exists segment_final_file;
      if present then
        actual_seg_duration ← probe_duration segment_final_file;
        if artifact_valid (seg_duration seg_info) actual_seg_duration then
          resume_scan rest (S i)
            (completed_segment_paths ++ [segment_final_file]) (S i)
        else
          unlink_missing_ok segment_final_file;;
          ret (completed_segment_paths, resume_segment_idx)
      else ret (completed_segment_paths, resume_segment_idx)
  end.

(** The final artifact of the segment at index [j] of the plan exists and
    passes (or fails) the test of line 508. *)
Definition artifact_at (files : gmap path file) (segs : list segment) (j : nat)
    (valid : bool) : Prop :=
  exists seg_info f,
    segs !! j = Some seg_info /\ files !! SegmentFinal (S j) = Some f
    /\ artifact_valid (seg_duration seg_info) (get_file_duration (Some f)) = valid.


(** The events of the encoding loop entered at index [i]: it works on the
    segments numbered above [i] only. *)
Definition loop_event (i : nat) (ev : event) : Prop :=
  match ev with
  | EvUnlink (SegmentPart n) | EvEncode n | EvSegmentFailed n | EvMoveFailed n
  | EvPopen (SegmentPart n) => (i < n)%nat
  | EvMove (SegmentPart n) (SegmentFinal n') => (i < n)%nat /\ n' = n
  | EvSleep | EvWriteQuit | EvWait _ _ _ | EvExited _ | EvInterrupt
  | EvTerminate | EvKill | EvJoin | EvError => True
  | _ => False
  end.

Definition loop_path (i : nat) (p : path) : Prop :=
  match p with
  | SegmentPart n | SegmentFinal n => (i < n)%nat
  | _ => False
  end.

(** *** Encoding loop: lines 523-551 *)

Definition pools_conflict (c : config) : bool :=
  match cfg_codec c with
  | H265 => bool_decide (0 < threads c)%Z && x265_params_has_pools c
  | H264 => false
  end.

Definition encode_segment (c : config) (e : env) (segment_number : nat) : M bool :=
  log (EvEncode segment_number);;
  if pools_conflict c then ret false
  else run_ffmpeg_command (SegmentPart segment_number)
         (segment_ffmpeg e segment_number).

(** [shutil.move(part, final)] under [try/except Exception]: [true] when the
    artifact was promoted. *)
Definition promote (e : env) (segment_number : nat) : M bool :=
  files ← read_fs;
  match files !! SegmentPart segment_number with
  | Some f =>
      if move_fails e segment_number then ret false
      else
        log (EvMove (SegmentPart segment_number) (SegmentFinal segment_number));;
        write_fs (fun m => <[SegmentFinal segment_number := f]>
                             (delete (SegmentPart segment_number) m));;
        ret true
  | None => ret false
  end.

(** [for i in range(resume_segment_idx, len(calculated_segments_info))],
    given the segments from index [i] on. *)
Fixpoint encoding_loop (c : config) (e : env) (segs : list segment) (i : nat)
    (completed_segment_paths : list path) : M (list path) :=
  match segs with
  | [] => ret completed_segment_paths
  | segment_info :: rest =>
      fl ← read_flags;
      if stop_requested fl then ret completed_segment_paths
      else
        let segment_number := S i in
        unlink_missing_ok (SegmentPart segment_number);;
        success ← encode_segment c e segment_number;
        if success then
          promoted ← promote e segment_number;
          if promoted then
            signals_arrive (signals_after_segment e segment_number);;
            encoding_loop c e rest (S i)
              (completed_segment_paths ++ [SegmentFinal segment_number])
          else log (EvMoveFailed segment_number);; ret completed_segment_paths
        else log (EvSegmentFailed segment_number);; ret completed_segment_paths
  end.

(** *** Concatenation: lines 365-398 *)

Definition write_manifest (e : env) (segment_files : list path) : M unit :=
  match manifest_write e with
  | ManifestOpenFails => raise OSError
  | ManifestWriteFails =>
      log (EvWrite Filelist);;
      write_fs (insert Filelist (ManifestFile []));;
      raise OSError
  | ManifestWritten =>
      log (EvWrite Filelist);;
      write_fs (insert Filelist (ManifestFile segment_files))
  end.

(** The [finally] block. *)
Definition remove_manifest (e : env) : M unit :=
  present ← path_exists Filelist;
  if present then
    if manifest_unlink_fails e then log EvWarn
    else log (EvUnlink Filelist);; write_fs (delete Filelist)
  else ret tt.

(** [concatenate_segments], with the call of [run_ffmpeg_command] as a
    parameter. *)
Definition concatenate_segments_with (backend : M bool) (e : env)
    (segment_files : list path) : M bool :=
  match segment_files with
  | [] => ret false
  | _ :: _ =>
      try_finally (write_manifest e segment_files;; backend) (remove_manifest e)
  end.

Definition concatenate_segments (e : env) (segment_files : list path) : M bool :=
  concatenate_segments_with (run_ffmpeg_command FinalOutput (concat_ffmpeg e))
    e segment_files.

(** *** Final outcome: lines 553-577 *)

Definition in_segments_dir (p : path) : bool :=
  match p with
  | SegmentsDir | RerunCommand | SegmentFinal _ | SegmentPart _ => true
  | InputFile | FinalOutput | Filelist => false
  end.

(** [shutil.rmtree(segments_dir)]; [OSError] is reported and swallowed. *)
Definition remove_segments_dir (e : env) : M unit :=
  if rmtree_fails e then log EvWarn
  else log EvRmtree;;
       write_fs (filter (fun entry : path * file => in_segments_dir entry.1 = false)).

Definition final_outcome (c : config) (e : env) (calculated_segments_info : list segment)
    (completed_segment_paths : list path) : M unit :=
  fl ← read_flags;
  if stop_requested fl then sys_exit 0
  else if Nat.eqb (length completed_segment_paths) (length calculated_segments_info)
  then
    log (EvConcatenate completed_segment_paths);;
    concat_success ← concatenate_segments e completed_segment_paths;
    if concat_success then
      if keep_segments c then ret tt else remove_segments_dir e
    else sys_exit 1
  else sys_exit 1.


(** *** [main_process] and the [__main__] block *)

(** The resume scan followed by the encoding loop: lines 495-551. *)
Definition resume_and_encode (c : config) (e : env)
    (calculated_segments_info : list segment) : M (list path) :=
  scanned ← resume_scan calculated_segments_info 0 [] 0;
  encoding_loop c e (drop scanned.2 calculated_segments_info)
    scanned.2 scanned.1.

(** Everything up to the end of the encoding loop. *)
Definition encode_phase (c : config) (e : env) : M (list segment * list path) :=
  signals_arrive (signals_at_startup e);;
  prepared ← prepare c e;
  cleanup_orphans;;
  calculated_segments_info ← plan c prepared.2;
  completed ← resume_and_encode c e calculated_segments_info;
  signals_arrive (signals_before_outcome e);;
  ret (calculated_segments_info, completed).

Definition main_process (c : config) (e : env) : M unit :=
  state ← encode_phase c e;
  final_outcome c e state.1 state.2.

(** The exit status the [__main__] block gives the process: [SystemExit]
    passes through, any other exception becomes status 2. *)
Definition exit_status (r : result unit) : Z :=
  match r with
  | Ok _ => 0
  | Exit code => code
  | Raise _ => 2
  end.

Definition run_script (c : config) (e : env) (w : world) : option (Z * world) :=
  match main_process c e w with
  | Some (r, w') => Some (exit_status r, w')
  | None => None
  end.

End Controller.

(** ** Sample runs *)

Module Scenarios.
Import Planner Probe Effects Supervisor Controller.

(** A media file whose video probe reports [d] seconds. *)
Definition media (d : Q) : file :=
  MediaFile (Some (FfprobeData (DurationValue d) 1)) None.

(** A child that ignores every stop request. *)
Definition deaf : ladder := Ladder None Hangs None None Hangs None None Hangs None.

(** An ffmpeg run that exits with [code] at the second poll and leaves a
    file of [d] seconds. *)
Definition ffmpeg_exits (code : Z) (d : Q) : invocation :=
  Invocation Spawned [Tick 0 None None; Tick 0 None (Some code)] deaf None
    (Some (media d)).

(** [--segment-length 5], defaults otherwise. *)
Definition sample_config : config := Config H265 0 false 5 false false.

(** Segment [n] of a 12 s input cut every 5 s lasts 5, 5 and 2 seconds. *)
Definition sample_duration (n : nat) : Q := if Nat.eqb n 3 then 2 else 5.

(** Nothing fails and nobody presses Ctrl+C. *)
Definition healthy_env : env :=
  Env 0 false false false (fun n => ffmpeg_exits 0 (sample_duration n))
    (fun _ => false) (fun _ => 0%nat) 0 ManifestWritten (ffmpeg_exits 0 12)
    false false.

(** As [healthy_env], but the encoder fails on segment 2. *)
Definition failing_env : env :=
  Env 0 false false false
    (fun n => if Nat.eqb n 2 then ffmpeg_exits 1 1
              else ffmpeg_exits 0 (sample_duration n))
    (fun _ => false) (fun _ => 0%nat) 0 ManifestWritten (ffmpeg_exits 0 12)
    false false.

(** As [healthy_env], but the manifest cannot be deleted. *)
Definition sticky_manifest_env : env :=
  Env 0 false false false (fun n => ffmpeg_exits 0 (sample_duration n))
    (fun _ => false) (fun _ => 0%nat) 0 ManifestWritten (ffmpeg_exits 0 12)
    true false.

(** As [healthy_env], but the manifest cannot be written. *)
Definition no_manifest_env : env :=
  Env 0 false false false (fun n => ffmpeg_exits 0 (sample_duration n))
    (fun _ => false) (fun _ => 0%nat) 0 ManifestOpenFails (ffmpeg_exits 0 12)
    false false.

(** As [healthy_env], but Ctrl+C arrives while segment 2 is encoded and the
    encoder answers the quit token by exiting with status 255. *)
Definition interrupted_env : env :=
  Env 0 false false false
    (fun n => if Nat.eqb n 2
              then Invocation Spawned [Tick 0 None None; Tick 1 None None]
                     (Ladder None (Exits 1500 255) None None Hangs None None
                        Hangs None) None (Some (media 1))
              else ffmpeg_exits 0 (sample_duration n))
    (fun _ => false) (fun _ => 0%nat) 0 ManifestWritten (ffmpeg_exits 0 12)
    false false.

(** A 12 s input and nothing else. *)
Definition fresh_world : world :=
  World {[InputFile := media 12]} (Flags false false) [].

(** The destination of an earlier, complete run is still there. *)
Definition finished_world : world :=
  World {[InputFile := media 12; FinalOutput := media 12]} (Flags false false) [].

(** An earlier run left segment 1 intact, segment 2 truncated to 3 s, and
    segment 3. *)
Definition interrupted_world : world :=
  World {[InputFile := media 12; SegmentsDir := Directory;
          SegmentFinal 1 := media 5; SegmentFinal 2 := media 3;
          SegmentFinal 3 := media 2]}
    (Flags false false) [].

Definition sample_plan : list segment :=
  [Segment 0 5 5; Segment 5 10 5; Segment 10 12 2].

End Scenarios.

(** ** What a run is observed to do

    Predicates on the environment and on traces that the properties of the
    supervisor and of the controller are stated with.  Deleting a segment
    file ([unlink(missing_ok=True)]) does not fail in the model of the
    controller; a property of a scan, a cleanup or a loop that returns is
    about a run in which it did not. *)

Module Observations.
Import Planner Probe Effects Supervisor Controller.
#[local] Open Scope M_scope.

(** An iteration of the polling loop in which no Ctrl+C arrives and no
    operation fails. *)
Definition calm (t : tick) : Prop := tick_signals t = 0%nat /\ tick_fault t = None.


(** The segment numbers [encode_segment] was called for, in order. *)
Definition encoded_segment (ev : event) : option nat :=
  match ev with
  | EvEncode n => Some n
  | _ => None
  end.

Definition encoded (tr : list event) : list nat := omap encoded_segment tr.

(** Looking at a final artifact: [exists()] and the probes of its duration. *)
Definition inspection (ev : event) : Prop :=
  match ev with
  | EvExists (SegmentFinal _) | EvProbe (SegmentFinal _) _ => True
  | _ => False
  end.


(** The events of the startup before the destination is looked at. *)
Definition probing_event (ev : event) : Prop :=
  match ev with
  | EvMkdir | EvWrite RerunCommand | EvWarn | EvProbe InputFile _ => True
  | _ => False
  end.

(** What [encode_phase] does once the startup has returned: lines 483-551. *)
Definition after_prepare (c : config) (e : env) (total_duration_input : Q)
    : M (list segment * list path) :=
  cleanup_orphans;;
  calculated_segments_info ← plan c total_duration_input;
  completed ← resume_and_encode c e calculated_segments_info;
  signals_arrive (signals_before_outcome e);;
  ret (calculated_segments_info, completed).

(** The events of the [finally] block of [concatenate_segments]. *)
Definition manifest_cleanup_event (ev : event) : Prop :=
  match ev with
  | EvExists Filelist | EvUnlink Filelist | EvWarn => True
  | _ => False
  end.

(** The events of [concatenate_segments]. *)
Definition concat_event (ev : event) : Prop :=
  match ev with
  | EvWrite Filelist | EvExists Filelist | EvUnlink Filelist | EvWarn
  | EvPopen FinalOutput => True
  | EvSleep | EvWriteQuit | EvWait _ _ _ | EvExited _ | EvInterrupt
  | EvTerminate | EvKill | EvJoin | EvError => True
  | _ => False
  end.

Definition concat_path (p : path) : Prop := p = Filelist \/ p = FinalOutput.




End Observations.

(** ** Command line: [parse_arguments] *)

Module CommandLine.
Import Planner Controller.
Import String.StringSyntax.
#[local] Open Scope string_scope.

(** The namespace argparse returns: [--codec] is one of its two choices, the
    [type=int] options are integers, and an option that was not given holds
    its default ([None] for [--crf] and [--pix_fmt]). *)
Record namespace : Type := Namespace {
  ns_codec : codec;
  ns_crf : option Z;
  ns_pix_fmt : option String.string;
  ns_framerate : Z;
  ns_threads : Z;
  ns_segment_length : Z
}.

Definition DEFAULT_H265_CRF : Z := 19.
Definition DEFAULT_H265_PIXEL_FORMAT : String.string := "yuv420p10le".
Definition DEFAULT_H264_CRF : Z := 18.
Definition DEFAULT_H264_PIXEL_FORMAT : String.string := "yuv420p".

(** What the checks of lines 126-137 see of the file system. *)
Record surroundings : Type := Surroundings {
  input_is_file : bool;            (* [input_path.is_file()] *)
  same_path : bool;                (* the two normalised paths are equal *)
  parent_mkdir_fails : bool        (* [output_path.parent.mkdir(..)] raises *)
}.

(** The calls of [parser.error], which end the process with status 2. *)
Inductive usage_error : Type :=
  | InputNotFound
  | SamePaths
  | SegmentLengthNotPositive
  | FramerateNotPositive
  | ThreadsNegative.

Inductive parse_outcome : Type :=
  | Accepted (args : namespace)
  | Rejected (e : usage_error)
  | MkdirRaised.

(** Lines 111-121. *)
Definition codec_defaults (args : namespace) : namespace :=
  match ns_codec args with
  | H264 =>
      Namespace (ns_codec args)
        (match ns_crf args with None => Some DEFAULT_H264_CRF | given => given end)
        (match ns_pix_fmt args with
         | None => Some DEFAULT_H264_PIXEL_FORMAT
         | given => given
         end)
        (ns_framerate args) (ns_threads args) (ns_segment_length args)
  | H265 =>
      Namespace (ns_codec args)
        (match ns_crf args with None => Some DEFAULT_H265_CRF | given => given end)
        (match ns_pix_fmt args with
         | None => Some DEFAULT_H265_PIXEL_FORMAT
         | given => given
         end)
        (ns_framerate args) (ns_threads args) (ns_segment_length args)
  end.

Definition parse_arguments (parsed : namespace) (s : surroundings) : parse_outcome :=
  let args := codec_defaults parsed in
  if negb (input_is_file s) then Rejected InputNotFound
  else if same_path s then Rejected SamePaths
  else if (ns_segment_length args <=? 0)%Z then Rejected SegmentLengthNotPositive
  else if (ns_framerate args <=? 0)%Z then Rejected FramerateNotPositive
  else if (ns_threads args <? 0)%Z then Rejected ThreadsNegative
  else if parent_mkdir_fails s then MkdirRaised
  else Accepted args.

End CommandLine.

(** ** Gap filling: [prepare_sequence.py] *)

Module PrepareSequence.
#[local] Open Scope Z_scope.

(** An input file that passed the filter of lines 49-52: the integer value
    of its all-digit stem and its name. *)
Definition frame : Type := Z * String.string.

(** [valid.sort(key=lambda f: int(..))]: Python's sort is stable, and so is
    this insertion sort; a stable sort by a key has one result. *)
Fixpoint insert_by_index (x : frame) (l : list frame) : list frame :=
  match l with
  | [] => [x]
  | y :: rest =>
      if x.1 <=? y.1 then x :: y :: rest else y :: insert_by_index x rest
  end.

Definition sort_by_index (l : list frame) : list frame :=
  foldr insert_by_index [] l.

(** One [shutil.copyfile]: the input file copied and the number [out_idx]
    the copy is named by (zero-padded, with the extension of the first
    file). *)
Record copy : Type := Copy {
  copy_source : String.string;
  copy_index : Z
}.

(** [for _ in range(missing)]: copies of [prev_file] from [out_idx] on. *)
Fixpoint fill (missing : nat) (prev_file : String.string) (out_idx : Z)
    : list copy :=
  match missing with
  | O => []
  | S n => Copy prev_file out_idx :: fill n prev_file (out_idx + 1)
  end.

(** [range(gap - 1)] when [gap > thresh], no iteration otherwise. *)
Definition missing_frames (thresh gap : Z) : nat :=
  if thresh <? gap then Z.to_nat (gap - 1) else O.

(** The loop of lines 73-109 after the first frame: the copies made and the
    final [out_idx]. *)
Fixpoint copy_loop (thresh prev_idx : Z) (prev_file : String.string) (out_idx : Z)
    (valid : list frame) : list copy * Z :=
  match valid with
  | [] => ([], out_idx)
  | (curr_idx, fn) :: rest =>
      let gap := curr_idx - prev_idx in
      let missing := missing_frames thresh gap in
      let out_idx' := out_idx + Z.of_nat missing in
      let '(copies, last) := copy_loop thresh curr_idx fn (out_idx' + 1) rest in
      (fill missing prev_file out_idx ++ Copy fn out_idx' :: copies, last)
  end.

(** [main] from the list of valid files on: [None] is [sys.exit(1)], the
    result is the copies in the order they are made and [total].  (A copy
    that fails ends the script with its exception; the result is that of a
    run in which none does.) *)
Definition main (thresh : Z) (valid : list frame) : option (list copy * Z) :=
  match sort_by_index valid with
  | [] => None
  | (first_idx, fn) :: rest =>
      let '(copies, out_idx) := copy_loop thresh first_idx fn 2 rest in
      Some (Copy fn 1 :: copies, out_idx - 1)
  end.

(** The frames come with strictly increasing indices above [prev_idx]. *)
Fixpoint ascending (prev_idx : Z) (frames : list frame) : Prop :=
  match frames with
  | [] => True
  | x :: rest => prev_idx < x.1 /\ ascending x.1 rest
  end.

(** No two neighbours are more than [thresh] apart. *)
Fixpoint dense (thresh prev_idx : Z) (frames : list frame) : Prop :=
  match frames with
  | [] => True
  | x :: rest => x.1 - prev_idx <= thresh /\ dense thresh x.1 rest
  end.

End PrepareSequence.

(** ** Re-timing: [prepare_sequence_v2.py] *)

Module RetimeSequence.
Import PrepareSequence.

(** Python's [round] on a float: to the nearest integer, a tie to the even
    one. *)
Definition py_round (q : Q) : Z :=
  let f := Qfloor q in
  match Qcompare (q - inject_Z f) (1 # 2) with
  | Lt => f
  | Gt => (f + 1)%Z
  | Eq => if Z.even f then f else (f + 1)%Z
  end.

(** Line 135: [max(1, round(original_gap / float(target_frame_pace)))]. *)
Definition num_output_steps (target_frame_pace original_gap : Z) : Z :=
  Z.max 1 (py_round (inject_Z original_gap / inject_Z target_frame_pace)).

#[local] Open Scope Z_scope.

(** The loop of lines 98-157 over the frames after the first, with the
    copies it makes and the final [output_filename_counter]. *)
Fixpoint retime_loop (target_frame_pace N_prev : Z) (U_prev_path : String.string)
    (output_filename_counter : Z) (parsed_frames : list frame) : list copy * Z :=
  match parsed_frames with
  | [] => ([], output_filename_counter)
  | (N_curr, U_curr_path) :: rest =>
      let original_gap := N_curr - N_prev in
      if original_gap <? 0 then
        let '(copies, last) :=
          retime_loop target_frame_pace N_curr U_curr_path
            (output_filename_counter + 1) rest in
        (Copy U_curr_path output_filename_counter :: copies, last)
      else if (original_gap =? 0) && String.eqb U_prev_path U_curr_path then
        retime_loop target_frame_pace N_prev U_prev_path output_filename_counter rest
      else if original_gap =? 0 then
        let '(copies, last) :=
          retime_loop target_frame_pace N_curr U_curr_path
            (output_filename_counter + 1) rest in
        (Copy U_curr_path output_filename_counter :: copies, last)
      else
        let steps := num_output_steps target_frame_pace original_gap in
        let num_hold_frames := if 1 <? steps then Z.to_nat (steps - 1) else O in
        let counter := output_filename_counter + Z.of_nat num_hold_frames in
        let '(copies, last) :=
          retime_loop target_frame_pace N_curr U_curr_path (counter + 1) rest in
        (fill num_hold_frames U_prev_path output_filename_counter
           ++ Copy U_curr_path counter :: copies, last)
  end.

(** [retime_image_sequence] from the parsed frames on, under the guard of
    the [__main__] block: [None] when nothing is written, else the copies
    and the total printed at the end, for a run in which no copy fails. *)
Definition retime_image_sequence (target_frame_pace : Z) (parsed_frames : list frame)
    : option (list copy * Z) :=
  if target_frame_pace <=? 0 then None
  else
    match sort_by_index parsed_frames with
    | [] => None
    | (N_first, U_first) :: rest =>
        let '(copies, counter) := retime_loop target_frame_pace N_first U_first 2 rest in
        Some (Copy U_first 1 :: copies, counter - 1)
    end.

End RetimeSequence.

(** * Properties *)

(** ** The segment planner *)

Module PlannerFacts.
Import Planner.

















End PlannerFacts.

(** ** The monad of effects *)

Module EffectsFacts.
Import Probe Effects.
#[local] Open Scope M_scope.

Lemma signal_handler_keeps_stop f :
  stop_requested f = true -> stop_requested (signal_handler f) = true.
Proof. unfold signal_handler. destruct f as [[] []]; simpl; done. Qed.

Lemma deliver_keeps_stop n f :
  stop_requested f = true -> stop_requested (deliver n f) = true.
Proof.
  intros Hf. induction n as [|n IH]; [done|].
  simpl. by apply signal_handler_keeps_stop.
Qed.

Lemma bind_ok {A B} (m : M A) (f : A -> M B) w a w' :
  m w = Some (Ok a, w') -> bind m f w = f a w'.
Proof. intros H. unfold bind. by rewrite H. Qed.

Lemma bind_exit {A B} (m : M A) (f : A -> M B) w code w' :
  m w = Some (Exit code, w') -> bind m f w = Some (Exit code, w').
Proof. intros H. unfold bind. by rewrite H. Qed.

Section Changes.
Context (P : event -> Prop) (Q : path -> Prop).

Lemma changes_refl w : changes P Q w w.
Proof.
  split; [|done]. exists []. by rewrite app_nil_r.
Qed.

Lemma changes_trans w1 w2 w3 :
  changes P Q w1 w2 -> changes P Q w2 w3 -> changes P Q w1 w3.
Proof.
  intros ((evs1 & Ht1 & Hp1) & Hf1 & Hs1) ((evs2 & Ht2 & Hp2) & Hf2 & Hs2).
  split; [|split].
  - exists (evs1 ++ evs2). rewrite Ht2, Ht1, app_assoc.
    split; [done|by apply Forall_app].
  - intros p Hp. by rewrite Hf2, Hf1.
  - auto.
Qed.

Lemma guarantees_ret {A} (a : A) : guarantees (changes P Q) (ret a).
Proof. intros w r w' [= <- <-]. apply changes_refl. Qed.

Lemma guarantees_sys_exit {A} code : guarantees (changes P Q) (@sys_exit A code).
Proof. intros w r w' [= <- <-]. apply changes_refl. Qed.

Lemma guarantees_raise {A} e : guarantees (changes P Q) (@raise A e).
Proof. intros w r w' [= <- <-]. apply changes_refl. Qed.

Lemma guarantees_bind {A B} (m : M A) (f : A -> M B) :
  guarantees (changes P Q) m -> (forall a, guarantees (changes P Q) (f a)) ->
  guarantees (changes P Q) (bind m f).
Proof.
  intros Hm Hf w r w' Hrun. unfold bind in Hrun.
  destruct (m w) as [[[a|c|e] w1]|] eqn:Hmw; [|by simplify_eq; eapply Hm..|done].
  eapply changes_trans; [by eapply Hm|by eapply Hf].
Qed.

Lemma guarantees_log ev : P ev -> guarantees (changes P Q) (log ev).
Proof.
  intros Hev w r w' [= <- <-]. split; [|done]. exists [ev]. simpl.
  split; [done|by constructor].
Qed.

Lemma guarantees_read_fs : guarantees (changes P Q) read_fs.
Proof. intros w r w' [= <- <-]. apply changes_refl. Qed.

Lemma guarantees_read_flags : guarantees (changes P Q) read_flags.
Proof. intros w r w' [= <- <-]. apply changes_refl. Qed.

Lemma guarantees_write_fs (f : gmap path file -> gmap path file) :
  (forall m p, ~ Q p -> f m !! p = m !! p) ->
  guarantees (changes P Q) (write_fs f).
Proof.
  intros Hf w r w' [= <- <-]. split; [|split]; simpl; [|by auto|done].
  exists []. by rewrite app_nil_r.
Qed.

Lemma guarantees_signals_arrive n : guarantees (changes P Q) (signals_arrive n).
Proof.
  intros w r w' [= <- <-]. split; [|split]; simpl; [|done|].
  - exists []. by rewrite app_nil_r.
  - apply deliver_keeps_stop.
Qed.

Lemma guarantees_try_except {A} (m : M A) catches handler :
  guarantees (changes P Q) m -> (forall e, guarantees (changes P Q) (handler e)) ->
  guarantees (changes P Q) (try_except m catches handler).
Proof.
  intros Hm Hh w r w' Hrun. unfold try_except in Hrun.
  destruct (m w) as [[[a|c|e] w1]|] eqn:Hmw; [by simplify_eq; eapply Hm..| |done].
  destruct (catches e); [|by simplify_eq; eapply Hm].
  eapply changes_trans; [by eapply Hm|by eapply Hh].
Qed.

Lemma guarantees_try_finally {A} (m : M A) cleanup :
  guarantees (changes P Q) m -> guarantees (changes P Q) cleanup ->
  guarantees (changes P Q) (try_finally m cleanup).
Proof.
  intros Hm Hc w r w' Hrun. unfold try_finally in Hrun.
  destruct (m w) as [[r1 w1]|] eqn:Hmw; [|done].
  destruct (cleanup w1) as [[[a|c|e] w2]|] eqn:Hcw; [| | |done];
    simplify_eq; (eapply changes_trans; [by eapply Hm|by eapply Hc]).
Qed.

Lemma guarantees_path_exists p : P (EvExists p) -> guarantees (changes P Q) (path_exists p).
Proof.
  intros Hp. unfold path_exists.
  apply guarantees_bind; [by apply guarantees_log|intros _].
  apply guarantees_bind; [apply guarantees_read_fs|intros m].
  apply guarantees_ret.
Qed.

Lemma guarantees_unlink p :
  P (EvUnlink p) -> Q p -> guarantees (changes P Q) (unlink_missing_ok p).
Proof.
  intros Hp Hq. unfold unlink_missing_ok.
  apply guarantees_bind; [by apply guarantees_log|intros _].
  apply guarantees_write_fs. intros m p' Hp'. apply lookup_delete_ne. congruence.
Qed.

Lemma guarantees_probe p stream :
  P (EvProbe p stream) -> guarantees (changes P Q) (probe p stream).
Proof.
  intros Hp. unfold probe.
  apply guarantees_bind; [by apply guarantees_log|intros _].
  apply guarantees_bind; [apply guarantees_read_fs|intros m].
  apply guarantees_ret.
Qed.

Lemma guarantees_probe_duration p :
  (forall stream, P (EvProbe p stream)) ->
  guarantees (changes P Q) (probe_duration p).
Proof.
  intros Hp. unfold probe_duration.
  apply guarantees_bind; [by apply guarantees_probe|intros v].
  destruct (parsed_duration v); [apply guarantees_ret|].
  apply guarantees_bind; [by apply guarantees_probe|intros a].
  destruct (parsed_duration a); apply guarantees_ret.
Qed.
End Changes.

(** One step of a proof that a computation stays within [changes P Q]. *)
Ltac guarantee_step :=
  first
    [ apply guarantees_ret | apply guarantees_sys_exit
    | apply guarantees_raise | apply guarantees_read_fs
    | apply guarantees_read_flags | apply guarantees_signals_arrive
    | apply guarantees_log; simpl; try done
    | apply guarantees_path_exists; simpl; try done
    | apply guarantees_unlink; simpl; try done
    | apply guarantees_probe; simpl; try done
    | apply guarantees_probe_duration; simpl; try done
    | apply guarantees_bind; [|intros ?]
    | apply guarantees_try_except; [|intros ?]
    | apply guarantees_try_finally
    | match goal with
      | |- guarantees _ (match ?x with _ => _ end) => destruct x
      end ].

Lemma changes_weaken (P P' : event -> Prop) (Q Q' : path -> Prop) w w' :
  (forall ev, P ev -> P' ev) -> (forall p, Q p -> Q' p) ->
  changes P Q w w' -> changes P' Q' w w'.
Proof.
  intros HP HQ ((evs & Ht & Hp) & Hf & Hs). split; [|split; [|done]].
  - exists evs. split; [done|]. eapply Forall_impl; [done|auto].
  - intros p Hp'. apply Hf. auto.
Qed.

(** [probe_duration] is [get_file_duration] on the file at the path. *)
Lemma probe_duration_spec p w :
  probe_duration p w
  = Some (Ok (get_file_duration (fs w !! p)),
          World (fs w) (cancellation w) (trace w ++ probe_events p (fs w !! p))).
Proof.
  unfold probe_duration, probe, bind, log, read_fs, ret, get_file_duration,
    probe_events, video_probe_suffices. simpl.
  destruct (parsed_duration (get_stream_info (fs w !! p) Video)); [done|].
  simpl. rewrite <- app_assoc. simpl.
  by destruct (parsed_duration (get_stream_info (fs w !! p) Audio)).
Qed.

End EffectsFacts.

(** ** The process supervisor *)

Module SupervisorFacts.
Import Probe Effects Supervisor EffectsFacts.

Ltac unfold_ladder :=
  unfold graceful_stop, stage_interrupt, stage_terminate, stage_kill,
    try_except, attempt, wait, poll, bind, ret, log, raise, fault_exn;
  simpl.

(** Decide membership in an explicit list. *)
Ltac in_list :=
  repeat first [apply list_elem_of_here | apply list_elem_of_further].

Ltac not_in_list :=
  repeat match goal with
    | H : _ ∈ [] |- _ => by apply elem_of_nil in H
    | H : _ ∈ _ :: _ |- _ => apply elem_of_cons in H as [H|H]; [discriminate|]
    end.

Ltac trace_extended :=
  unfold extends; simpl; rewrite <- ?app_assoc; simpl;
  first [reflexivity | symmetry; apply app_nil_r].

(** The ladder returns, and its events are as [ladder_post] says. *)
Lemma graceful_stop_ladder l w :
  exists r w' evs, graceful_stop l w = Some (r, w') /\ extends w w' evs
                   /\ ladder_post l r evs.
Proof.
  destruct l as [wq aq sq fi ai si ft at_ st].
  unfold_ladder.
  repeat (case_match; simpl in *; simplify_eq).
  all: do 3 eexists; split; [reflexivity|]; split; [trace_extended|].
  all: unfold ladder_post, stage_actions, timed_out, unresponsive, outlasts,
         full_ladder, FFMPEG_SHUTDOWN_TIMEOUT_Q, FFMPEG_SHUTDOWN_TIMEOUT_SIG,
         FFMPEG_SHUTDOWN_TIMEOUT_TERM in *; simpl.
  all: split; [repeat (constructor; try lia)|].
  all: split; [intros Hin; first [left; by eauto | right; by in_list
                                 | exfalso; by not_in_list]|].
  all: split; [intros Hin; first [split; by in_list | exfalso; by not_in_list]|].
  all: split; [intros Hin; first [split; by in_list | exfalso; by not_in_list]|].
  all: split; [lra|].
  all: intros (? & ? & ? & ? & ? & ? & ? & ? & ?); simplify_eq; first [done | lra].
Qed.

(** A stop request seen while the child is alive starts the ladder. *)
Lemma poll_loop_graceful l t rest w :
  tick_fault t = None -> tick_status t = None ->
  stop_requested (deliver (tick_signals t) (cancellation w)) = true ->
  force_stop_requested (deliver (tick_signals t) (cancellation w)) = false ->
  poll_loop l (t :: rest) w
  = graceful_stop l
      (World (fs w) (deliver (tick_signals t) (cancellation w)) (trace w)).
Proof.
  intros Hf Hs Hstop Hforce. simpl.
  unfold bind, signals_arrive, poll, read_flags, ret. simpl.
  rewrite Hf. simpl. rewrite Hs. simpl. by rewrite Hforce, Hstop.
Qed.

(** C4: when a graceful stop is seen while the child is alive, the rungs
    are attempted in the order quit token, interrupt, terminate, kill, each
    only after the rung before it failed or its wait expired; the time spent
    waiting is at most the sum of the three timeouts, and when every wait
    expires the unconditional kill is reached. *)
Theorem shutdown_ladder_escalates l t rest w :
  tick_fault t = None -> tick_status t = None ->
  stop_requested (deliver (tick_signals t) (cancellation w)) = true ->
  force_stop_requested (deliver (tick_signals t) (cancellation w)) = false ->
  exists r w' evs,
    poll_loop l (t :: rest) w = Some (r, w') /\ extends w w' evs
    /\ ladder_post l r evs.
Proof.
  intros Hf Hs Hstop Hforce.
  rewrite (poll_loop_graceful l t rest w Hf Hs Hstop Hforce).
  destruct (graceful_stop_ladder l
              (World (fs w) (deliver (tick_signals t) (cancellation w)) (trace w)))
    as (r & w' & evs & Hrun & Hext & Hpost).
  exists r, w', evs. split; [done|]. split; [exact Hext|done].
Qed.

Lemma shutdown_ladder_escalates_witness :
  exists r w' evs,
    poll_loop (Ladder None Hangs None None Hangs None None Hangs None)
      [Tick 1 None None] (World ∅ (Flags false false) [])
    = Some (r, w')
    /\ extends (World ∅ (Flags false false) []) w' evs
    /\ ladder_post (Ladder None Hangs None None Hangs None None Hangs None) r evs.
Proof. apply shutdown_ladder_escalates; reflexivity. Defined.

(** A child that ignores the quit token, the interrupt and the terminate
    signal is killed after 10 + 8 + 5 seconds of waiting. *)
Example unresponsive_child_is_killed :
  let l := Ladder None Hangs None None (Exits 9000 0) None None Hangs None in
  exists w', poll_loop l [Tick 1 None None] (World ∅ (Flags false false) [])
             = Some (Ok None, w')
             /\ trace w' = full_ladder /\ time_waited (trace w') == 23.
Proof. eexists. split; [reflexivity|]. split; reflexivity. Qed.

(** *** The value [run_ffmpeg_command] returns *)

(** The ladder's result is the exit status it collected, if any. *)
Lemma graceful_stop_status l w :
  exists r w' evs, graceful_stop l w = Some (r, w') /\ extends w w' evs
                   /\ status_post r evs.
Proof.
  destruct l as [wq aq sq fi ai si ft at_ st].
  unfold_ladder.
  repeat (case_match; simpl in *; simplify_eq).
  all: do 3 eexists; split; [reflexivity|]; split; [trace_extended|].
  all: unfold status_post; split; [intros Hin; by not_in_list|].
  all: try (intros ? Hin; by not_in_list).
  all: split; [|intros Hin; first [done | by not_in_list]].
  all: split; intros Hin; first [by simplify_eq; in_list | by not_in_list | idtac].
  all: repeat (apply elem_of_cons in Hin as [Hin|Hin];
               [first [discriminate | by simplify_eq]|]).
  all: by apply elem_of_nil in Hin.
Qed.

Lemma status_post_skip (ev : event) r evs :
  stage_rank ev = None -> ev <> EvError -> (forall code, ev <> EvExited code) ->
  status_post r evs -> status_post r (ev :: evs).
Proof.
  intros Hrank Herr Hex [Hnoerr Hr]. split.
  - intros [Heq|Hin]%elem_of_cons; [congruence|by apply Hnoerr].
  - destruct r as [rc|c|e]; [|done|].
    + destruct Hr as [Hzero Hkill]. split; [split|].
      * intros Hrc. apply list_elem_of_further. by apply Hzero.
      * intros [Heq|Hin]%elem_of_cons; [by destruct (Hex 0%Z)|by apply Hzero].
      * intros [Heq|Hin]%elem_of_cons; [by subst ev|by apply Hkill].
    + intros code [Heq|Hin]%elem_of_cons; [by destruct (Hex code)|].
      by apply (Hr code).
Qed.

(** Every finished run of the polling loop ends with the exit status it
    collected. *)
Lemma poll_loop_status l ts : forall w r w',
  poll_loop l ts w = Some (r, w') ->
  exists evs, extends w w' evs /\ status_post r evs.
Proof.
  induction ts as [|t rest IH]; intros w r w' Hrun; [done|].
  simpl in Hrun. unfold bind, signals_arrive, poll, read_flags, ret, raise, log
    in Hrun. simpl in Hrun.
  destruct (tick_fault t) as [f|]; simpl in Hrun.
  { injection Hrun as <- <-. exists []. split; [trace_extended|].
    split; [intros Hin; by not_in_list|intros code Hin; by not_in_list]. }
  destruct (tick_status t) as [code|]; simpl in Hrun.
  { injection Hrun as <- <-. exists [EvExited code]. split; [trace_extended|].
    split; [intros Hin; by not_in_list|]. split; [split|].
    - intros [= ->]. in_list.
    - intros Hin. apply elem_of_cons in Hin as [[= <-]|Hin]; [done|by not_in_list].
    - intros Hin. by not_in_list. }
  destruct (force_stop_requested _) eqn:Hforce; simpl in Hrun.
  { injection Hrun as <- <-. exists [EvKill]. split; [trace_extended|].
    split; [intros Hin; by not_in_list|]. split; [split|]; [done| |done].
    intros Hin. by not_in_list. }
  destruct (stop_requested _) eqn:Hstop.
  { destruct (graceful_stop_status l
                (World (fs w) (deliver (tick_signals t) (cancellation w)) (trace w)))
      as (r0 & w0 & evs & Hg & Hext & Hpost).
    rewrite Hg in Hrun. injection Hrun as <- <-. by exists evs. }
  apply IH in Hrun as (evs & Hext & Hpost). exists (EvSleep :: evs). split.
  - unfold extends in *. simpl in Hext. by rewrite Hext, <- app_assoc.
  - by apply status_post_skip.
Qed.



Lemma run_not_spawned output inv w :
  spawn inv <> Spawned -> run_ffmpeg_command output inv w = Some (Ok false, w).
Proof. unfold run_ffmpeg_command. by destruct (spawn inv). Qed.

Lemma run_spawned_ok output inv w rc w1 :
  spawn inv = Spawned ->
  poll_loop (shutdown inv) (ticks inv) (spawned output inv w) = Some (Ok rc, w1) ->
  run_ffmpeg_command output inv w
  = Some (Ok (bool_decide (rc = Some 0%Z)),
          World (fs w1) (cancellation w1) (trace w1 ++ [EvJoin])).
Proof.
  intros Hs Hloop. unfold run_ffmpeg_command. rewrite Hs.
  unfold try_except, supervise. unfold bind, log, write_fs, ret. simpl.
  unfold spawned in Hloop. by rewrite Hloop.
Qed.

Lemma run_spawned_raise output inv w e w1 :
  spawn inv = Spawned ->
  poll_loop (shutdown inv) (ticks inv) (spawned output inv w) = Some (Raise e, w1) ->
  run_ffmpeg_command output inv w
  = Some (Ok false,
          World (fs w1) (cancellation w1)
            (trace w1 ++ EvError :: match status_in_handler inv with
                                    | Some code => [EvExited code]
                                    | None => [EvKill]
                                    end)).
Proof.
  intros Hs Hloop. unfold run_ffmpeg_command. rewrite Hs.
  unfold try_except, supervise. unfold bind, log, write_fs, ret. simpl.
  unfold spawned in Hloop. rewrite Hloop.
  unfold on_exception, poll, bind, log, ret. simpl.
  destruct (status_in_handler inv); simpl; by rewrite <- ?app_assoc.
Qed.


(** [run_ffmpeg_command] never exits and never raises. *)
Lemma run_ffmpeg_command_ok output inv w r w' :
  run_ffmpeg_command output inv w = Some (r, w') -> exists b, r = Ok b.
Proof.
  intros Hrun.
  assert (Hcase : spawn inv = Spawned \/ spawn inv <> Spawned)
    by (destruct (spawn inv); [by left|by right..]).
  destruct Hcase as [Hs|Hs].
  - destruct (poll_loop (shutdown inv) (ticks inv) (spawned output inv w))
      as [[[rc|c|e] w1]|] eqn:Hloop.
    + rewrite (run_spawned_ok _ _ _ _ _ Hs Hloop) in Hrun. injection Hrun as <- _.
      eauto.
    + by destruct (poll_loop_status _ _ _ _ _ Hloop) as (evs & _ & _ & ?).
    + rewrite (run_spawned_raise _ _ _ _ _ Hs Hloop) in Hrun.
      injection Hrun as <- _. eauto.
    + unfold run_ffmpeg_command in Hrun. rewrite Hs in Hrun.
      unfold try_except, supervise in Hrun. unfold bind, log, write_fs in Hrun.
      simpl in Hrun. unfold spawned in Hloop. by rewrite Hloop in Hrun.
  - rewrite run_not_spawned in Hrun by done. injection Hrun as <- _. eauto.
Qed.


(** A child that exits with status 0 makes the call succeed; a force-stop
    makes it fail at once; a failing operation makes it fail after the
    child was killed. *)
Example run_ffmpeg_command_examples :
  let quiet := Ladder None Hangs None None Hangs None None Hangs None in
  let w := World ∅ (Flags false false) [] in
  (exists w', run_ffmpeg_command FinalOutput
                (Invocation Spawned [Tick 0 None (Some 0%Z)] quiet None None) w
              = Some (Ok true, w')
              /\ trace w' = [EvPopen FinalOutput; EvExited 0; EvJoin])
  /\ (exists w', run_ffmpeg_command FinalOutput
                   (Invocation Spawned [Tick 2 None None] quiet None None) w
                 = Some (Ok false, w')
                 /\ trace w' = [EvPopen FinalOutput; EvKill; EvJoin])
  /\ (exists w', run_ffmpeg_command FinalOutput
                   (Invocation Spawned [Tick 0 (Some FaultOSError) None] quiet
                      None None) w
                 = Some (Ok false, w')
                 /\ trace w' = [EvPopen FinalOutput; EvError; EvKill]).
Proof. repeat split; eexists; split; reflexivity. Qed.

(** A supervised invocation logs supervisor events only and writes to its
    output only. *)
Lemma graceful_stop_changes output l :
  guarantees (changes (supervisor_event output) (fun p => p = output))
    (graceful_stop l).
Proof.
  unfold graceful_stop, stage_interrupt, stage_terminate, stage_kill, attempt,
    wait, poll.
  repeat guarantee_step.
Qed.

Lemma poll_loop_changes output l ts :
  guarantees (changes (supervisor_event output) (fun p => p = output))
    (poll_loop l ts).
Proof.
  induction ts as [|t rest IH]; [done|]. simpl. unfold poll.
  repeat first [apply graceful_stop_changes | apply IH | guarantee_step].
Qed.

Lemma run_ffmpeg_command_changes output inv :
  guarantees (changes (supervisor_event output) (fun p => p = output))
    (run_ffmpeg_command output inv).
Proof.
  unfold run_ffmpeg_command, supervise, on_exception, poll.
  repeat first [apply poll_loop_changes | guarantee_step].
  apply guarantees_write_fs. intros m p Hp. unfold child_output.
  destruct (output_written inv); [|done]. by apply lookup_insert_ne.
Qed.

End SupervisorFacts.

(** ** The run controller *)

Module ControllerFacts.
Import Planner Probe Effects Supervisor Controller EffectsFacts SupervisorFacts.
#[local] Open Scope M_scope.

(** *** The resume scan *)



(** One iteration of the scan on an artifact that exists. *)
Lemma resume_scan_present seg_info rest i completed ridx w f :
  fs w !! SegmentFinal (S i) = Some f ->
  let p := SegmentFinal (S i) in
  let w1 := World (fs w) (cancellation w)
              (trace w ++ EvExists p :: probe_events p (Some f)) in
  resume_scan (seg_info :: rest) i completed ridx w
  = if artifact_valid (seg_duration seg_info) (get_file_duration (Some f))
    then resume_scan rest (S i) (completed ++ [p]) (S i) w1
    else Some (Ok (completed, ridx),
               World (delete p (fs w)) (cancellation w) (trace w1 ++ [EvUnlink p])).
Proof.
  intros Hf p w1. simpl. unfold bind at 1. unfold path_exists.
  unfold bind at 1. unfold log at 1. unfold bind at 1. unfold read_fs, ret. simpl.
  rewrite Hf. rewrite bool_decide_eq_true_2 by eauto.
  unfold bind at 1. rewrite probe_duration_spec. simpl. rewrite Hf.
  subst w1 p. rewrite <- !app_assoc. simpl.
  destruct (artifact_valid _ _); [done|].
  unfold bind, unlink_missing_ok, bind, log, write_fs, ret. simpl.
  by rewrite <- !app_assoc.
Qed.

(** One iteration of the scan on a missing artifact. *)
Lemma resume_scan_missing seg_info rest i completed ridx w :
  fs w !! SegmentFinal (S i) = None ->
  resume_scan (seg_info :: rest) i completed ridx w
  = Some (Ok (completed, ridx),
          World (fs w) (cancellation w) (trace w ++ [EvExists (SegmentFinal (S i))])).
Proof.
  intros Hf. simpl. unfold bind, path_exists, bind, log, read_fs, ret. simpl.
  rewrite Hf. rewrite bool_decide_eq_false_2; [done|]. by intros [? ?].
Qed.

(** A 5.05 s input cut every 5 s has a second segment of 0.05 s. *)
Example short_last_segment :
  calculate_segments 5.05 5 = Some [Segment 0 5 5; Segment 5 5.05 0.05].
Proof. reflexivity. Qed.







(** The encoding loop entered at index [i] works on the segments numbered
    above [i] only. *)
Lemma encode_segment_changes c e n i : (i < n)%nat ->
  guarantees (changes (loop_event i) (loop_path i)) (encode_segment c e n).
Proof.
  intros Hn. unfold encode_segment.
  apply guarantees_bind; [by apply guarantees_log|intros _].
  destruct (pools_conflict c); [apply guarantees_ret|].
  intros w r w' Hrun. apply run_ffmpeg_command_changes in Hrun.
  revert Hrun. apply changes_weaken.
  - intros [] Hev; simpl in *; try done. by subst.
  - intros p ->. done.
Qed.

Lemma promote_changes e n i : (i < n)%nat ->
  guarantees (changes (loop_event i) (loop_path i)) (promote e n).
Proof.
  intros Hn. unfold promote. repeat guarantee_step.
  apply guarantees_write_fs. intros m p Hp.
  rewrite lookup_insert_ne, lookup_delete_ne; [done| |]; intros <-; by apply Hp.
Qed.

Lemma encoding_loop_changes c e segs : forall i completed,
  guarantees (changes (loop_event i) (loop_path i))
    (encoding_loop c e segs i completed).
Proof.
  induction segs as [|seg rest IH]; intros i completed; simpl.
  - apply guarantees_ret.
  - apply guarantees_bind; [apply guarantees_read_flags|intros fl].
    destruct (stop_requested fl); [apply guarantees_ret|].
    apply guarantees_bind; [apply guarantees_unlink; simpl; lia|intros _].
    apply guarantees_bind; [apply encode_segment_changes; lia|intros success].
    destruct success; [|repeat guarantee_step; lia].
    apply guarantees_bind; [apply promote_changes; lia|intros promoted].
    destruct promoted; [|repeat guarantee_step; lia].
    apply guarantees_bind; [apply guarantees_signals_arrive|intros _].
    intros w r w' Hrun. apply IH in Hrun. revert Hrun. apply changes_weaken.
    + intros [] Hev; simpl in *; try done; try lia.
      all: repeat case_match; try done; lia.
    + intros [] Hp; simpl in *; try done; lia.
Qed.

(** The encoder call of one iteration returns a boolean and logs
    supervisor events only. *)
Lemma encoder_call_result c e n w r w' :
  (if pools_conflict c then ret false
   else run_ffmpeg_command (SegmentPart n) (segment_ffmpeg e n)) w = Some (r, w') ->
  exists b evs, r = Ok b /\ trace w' = trace w ++ evs
                /\ Forall (supervisor_event (SegmentPart n)) evs.
Proof.
  destruct (pools_conflict c).
  - intros [= <- <-]. exists false, []. by rewrite app_nil_r.
  - intros Hrun. destruct (run_ffmpeg_command_ok _ _ _ _ _ Hrun) as [b ->].
    destruct (run_ffmpeg_command_changes _ _ _ _ _ Hrun) as ((evs & Htr & Hevs) & _).
    by exists b, evs.
Qed.

Lemma promote_result e n w r w' :
  promote e n w = Some (r, w') ->
  (r = Ok true /\ trace w' = trace w ++ [EvMove (SegmentPart n) (SegmentFinal n)])
  \/ (r = Ok false /\ w' = w).
Proof.
  unfold promote, bind, read_fs, log, write_fs, ret. simpl.
  destruct (fs w !! SegmentPart n); [|intros [= <- <-]; by right].
  destruct (move_fails e n); simpl; intros [= <- <-]; [by right|by left].
Qed.

(** What follows the call of [encode_segment] in one iteration. *)
Lemma encoding_loop_first c e seg rest i completed w :
  stop_requested (cancellation w) = false ->
  encoding_loop c e (seg :: rest) i completed w
  = bind (if pools_conflict c then ret false
          else run_ffmpeg_command (SegmentPart (S i)) (segment_ffmpeg e (S i)))
      (fun success : bool =>
         if success then
           promoted ← promote e (S i);
           if promoted then
             signals_arrive (signals_after_segment e (S i));;
             encoding_loop c e rest (S i) (completed ++ [SegmentFinal (S i)])
           else log (EvMoveFailed (S i));; ret completed
         else log (EvSegmentFailed (S i));; ret completed)
      (World (delete (SegmentPart (S i)) (fs w)) (cancellation w)
         (trace w ++ [EvUnlink (SegmentPart (S i)); EvEncode (S i)])).
Proof.
  intros Hstop. simpl. unfold bind at 1. unfold read_flags. rewrite Hstop.
  unfold bind at 1. unfold unlink_missing_ok, bind at 1. unfold log at 1.
  unfold bind at 1. unfold write_fs at 1. simpl.
  unfold encode_segment. unfold bind at 1. unfold bind at 1. unfold log at 1.
  simpl. by rewrite <- app_assoc.
Qed.





(** The resumed sample run: the truncated segment 2 is deleted, segments 2
    and 3 are encoded again, segment 1 is not touched. *)
Example resume_sample_run :
  exists w', resume_and_encode Scenarios.sample_config Scenarios.healthy_env
               Scenarios.sample_plan Scenarios.interrupted_world
             = Some (Ok [SegmentFinal 1; SegmentFinal 2; SegmentFinal 3], w')
             /\ fs w' !! SegmentFinal 1 = Some (Scenarios.media 5)
             /\ trace w'
                = [EvExists (SegmentFinal 1); EvProbe (SegmentFinal 1) Video;
                   EvExists (SegmentFinal 2); EvProbe (SegmentFinal 2) Video;
                   EvUnlink (SegmentFinal 2);
                   EvUnlink (SegmentPart 2); EvEncode 2; EvPopen (SegmentPart 2);
                   EvSleep; EvExited 0; EvJoin;
                   EvMove (SegmentPart 2) (SegmentFinal 2);
                   EvUnlink (SegmentPart 3); EvEncode 3; EvPopen (SegmentPart 3);
                   EvSleep; EvExited 0; EvJoin;
                   EvMove (SegmentPart 3) (SegmentFinal 3)].
Proof. eexists. split; [vm_compute; reflexivity|]. split; reflexivity. Qed.

(** *** Concatenation *)

(** The [finally] block of [concatenate_segments]. *)
Lemma remove_manifest_spec e w :
  exists w', remove_manifest e w = Some (Ok tt, w')
    /\ cancellation w' = cancellation w
    /\ (manifest_unlink_fails e = false ->
          fs w' = delete Filelist (fs w)
          /\ (trace w' = trace w ++ [EvExists Filelist; EvUnlink Filelist]
              \/ (fs w !! Filelist = None
                  /\ trace w' = trace w ++ [EvExists Filelist])))
    /\ (manifest_unlink_fails e = true ->
          fs w' = fs w
          /\ (is_Some (fs w !! Filelist) ->
                trace w' = trace w ++ [EvExists Filelist; EvWarn])).
Proof.
  unfold remove_manifest, path_exists, bind, log, read_fs, write_fs, ret. simpl.
  destruct (fs w !! Filelist) as [f|] eqn:Hf.
  - rewrite bool_decide_eq_true_2 by eauto.
    destruct (manifest_unlink_fails e); simpl; eexists; (split; [reflexivity|]);
      simpl; (split; [done|]); (split; [intros ?|intros ?]); try done.
    + split; [done|]. by rewrite <- app_assoc.
    + split; [done|]. left. by rewrite <- app_assoc.
  - rewrite bool_decide_eq_false_2 by (by intros [? ?]).
    eexists. split; [reflexivity|]. simpl. split; [done|]. split; intros _.
    + split; [|by right]. symmetry. by apply delete_id.
    + split; [done|]. by intros [? ?].
Qed.

(** C9, as stated, fails when the deletion of the manifest itself fails:
    the [OSError] is reported as a warning and the manifest stays. *)
Lemma manifest_left_when_unlink_fails :
  exists w',
    concatenate_segments Scenarios.sticky_manifest_env [SegmentFinal 1]
      (World {[SegmentFinal 1 := Scenarios.media 12]} (Flags false false) [])
    = Some (Ok true, w')
    /\ fs w' !! Filelist = Some (ManifestFile [SegmentFinal 1])
    /\ last (trace w') = Some EvWarn.
Proof. eexists. split; [vm_compute; reflexivity|]. split; reflexivity. Qed.

(** C9 (amended): after a call of [concatenate_segments] with a non-empty
    list, whether the backend invocation succeeds, fails or raises, the
    manifest is gone, unless its deletion fails with an [OSError]: then a
    warning is printed and the manifest is left where it is.  The call
    returns whenever the backend invocation does. *)
Theorem manifest_removed_unless_unlink_fails (backend : M bool) e files w :
  files <> [] ->
  (forall w1, is_Some (backend w1)) ->
  exists r w',
    concatenate_segments_with backend e files w = Some (r, w')
    /\ (manifest_unlink_fails e = false -> fs w' !! Filelist = None)
    /\ (manifest_unlink_fails e = true -> is_Some (fs w' !! Filelist) ->
          last (trace w') = Some EvWarn).
Proof.
  intros Hfiles Hback. destruct files as [|p files]; [done|].
  unfold concatenate_segments_with, try_finally.
  assert (Hbody : is_Some ((write_manifest e (p :: files);; backend) w)).
  { unfold write_manifest, bind, log, write_fs, raise.
    destruct (manifest_write e); simpl; eauto. }
  destruct Hbody as [[r w1] ->].
  destruct (remove_manifest_spec e w1) as (w2 & -> & _ & Hok & Hfail).
  exists r, w2. split; [done|]. split.
  - intros Hu. destruct (Hok Hu) as [-> _]. apply lookup_delete_eq.
  - intros Hu Hsome. destruct (Hfail Hu) as [Hfs Htr]. rewrite Hfs in Hsome.
    rewrite (Htr Hsome). change [EvExists Filelist; EvWarn]
      with ([EvExists Filelist] ++ [EvWarn]). by rewrite app_assoc, last_snoc.
Qed.

(** With a backend invocation that raises. *)
Lemma manifest_removed_unless_unlink_fails_witness :
  exists r w',
    concatenate_segments_with (raise RuntimeError) Scenarios.healthy_env
      [SegmentFinal 1] Scenarios.fresh_world = Some (r, w')
    /\ fs w' !! Filelist = None.
Proof.
  destruct (manifest_removed_unless_unlink_fails (raise RuntimeError)
              Scenarios.healthy_env [SegmentFinal 1] Scenarios.fresh_world)
    as (r & w' & Hrun & Hgone & _); [discriminate|by eexists|].
  exists r, w'. split; [exact Hrun|]. apply Hgone. reflexivity.
Defined.

(** [run_ffmpeg_command] returns whenever its polling loop is settled, so
    the sample concatenation is covered. *)
Example concatenation_removes_manifest :
  exists w',
    concatenate_segments Scenarios.healthy_env [SegmentFinal 1]
      (World {[SegmentFinal 1 := Scenarios.media 12]} (Flags false false) [])
    = Some (Ok true, w')
    /\ fs w' !! Filelist = None
    /\ trace w' = [EvWrite Filelist; EvPopen FinalOutput; EvSleep; EvExited 0;
                   EvJoin; EvExists Filelist; EvUnlink Filelist].
Proof. eexists. split; [vm_compute; reflexivity|]. split; reflexivity. Qed.

(** *** Startup *)

Lemma make_segments_dir_changes e :
  guarantees (changes startup_event startup_path) (make_segments_dir e).
Proof.
  unfold make_segments_dir. repeat guarantee_step.
  apply guarantees_write_fs. intros m p Hp. apply lookup_insert_ne.
  intros <-. apply Hp. by left.
Qed.

Lemma save_rerun_command_changes e :
  guarantees (changes startup_event startup_path) (save_rerun_command e).
Proof.
  unfold save_rerun_command. repeat guarantee_step.
  apply guarantees_write_fs. intros m p Hp. apply lookup_insert_ne.
  intros <-. apply Hp. by right.
Qed.

Lemma make_segments_dir_result e w :
  exists r w', make_segments_dir e w = Some (r, w')
    /\ ((r = Ok tt /\ segments_dir_available e w)
        \/ (r = Exit 1 /\ ~ segments_dir_available e w)).
Proof.
  unfold make_segments_dir, segments_dir_available, bind, read_fs, log, write_fs,
    sys_exit. simpl.
  destruct (fs w !! SegmentsDir) as [[]|]; destruct (mkdir_fails e); simpl;
    eexists _, _; (split; [reflexivity|]);
    first [left; by eauto | right; split; [done|]; intros [? [?|?]]; done].
Qed.

Lemma save_rerun_command_result e w :
  exists w', save_rerun_command e w = Some (Ok tt, w').
Proof.
  unfold save_rerun_command, bind, log, write_fs.
  destruct (rerun_write_fails e); simpl; eauto.
Qed.





Lemma unlink_all_changes ps :
  Forall segment_path ps ->
  guarantees (changes setup_event segment_path) (unlink_all ps).
Proof.
  induction 1 as [|p ps Hp Hps IH]; simpl; [apply guarantees_ret|].
  apply guarantees_bind; [by apply guarantees_unlink|intros _; exact IH].
Qed.


Lemma orphans_are_segment_paths (l : list (path * file)) :
  Forall segment_path (filter (fun p => is_orphan p = true) l).*1.
Proof.
  induction l as [|[p f] l IH]; [constructor|].
  rewrite filter_cons. destruct (decide (is_orphan (p, f) = true)) as [Ho|Ho];
    [|done].
  simpl. constructor; [|done]. by destruct p.
Qed.

Lemma cleanup_orphans_changes :
  guarantees (changes setup_event segment_path) cleanup_orphans.
Proof.
  unfold cleanup_orphans. apply guarantees_bind; [apply guarantees_read_fs|].
  intros files. apply unlink_all_changes, orphans_are_segment_paths.
Qed.


Lemma plan_result c total w r w' :
  plan c total w = Some (r, w') ->
  w' = w
  /\ match r with
     | Ok segs =>
         calculate_segments total (inject_Z (segment_length c)) = Some segs
         /\ segs <> []
     | Exit code => code = 1%Z
     | Raise _ => False
     end.
Proof.
  unfold plan.
  destruct (calculate_segments total (inject_Z (segment_length c)))
    as [[|seg segs]|]; [| |done]; intros [= <- <-]; by split.
Qed.

Lemma resume_scan_changes segs : forall i completed ridx,
  guarantees (changes setup_event segment_path)
    (resume_scan segs i completed ridx).
Proof.
  induction segs as [|seg rest IH]; intros i completed ridx; simpl.
  - apply guarantees_ret.
  - repeat first [apply IH | guarantee_step].
Qed.


Lemma encode_phase_stops_at_prepare c e w code w' :
  prepare c e (World (fs w) (deliver (signals_at_startup e) (cancellation w))
                 (trace w)) = Some (Exit code, w') ->
  main_process c e w = Some (Exit code, w').
Proof.
  intros Hprep. unfold main_process, encode_phase.
  apply bind_exit. unfold bind at 1. unfold signals_arrive at 1.
  by apply bind_exit.
Qed.


(** ... and it exits with status 1 when the duration of the input cannot
    be determined. *)
Example existing_output_unreadable_input :
  exists w',
    run_script Scenarios.sample_config Scenarios.healthy_env
      (World {[InputFile := TextFile; FinalOutput := Scenarios.media 12]}
         (Flags false false) [])
    = Some (1%Z, w').
Proof. eexists. vm_compute. reflexivity. Qed.



(** *** The encoding phase and the final outcome *)


















(** A graceful stop while segment 2 is encoded: the run exits with status
    0 and segment 1 stays. *)
Example graceful_stop_mid_run :
  exists w',
    run_script Scenarios.sample_config Scenarios.interrupted_env
      Scenarios.fresh_world = Some (0%Z, w')
    /\ fs w' !! SegmentFinal 1 = Some (Scenarios.media 5)
    /\ fs w' !! FinalOutput = None
    /\ stop_requested (cancellation w') = true.
Proof. eexists. split; [vm_compute; reflexivity|]. repeat split; reflexivity. Qed.



(** The sample runs: a complete run exits with 0 and leaves the
    destination; a run whose encoder fails on segment 2 exits with 1; a run
    that cannot write the manifest ends with an uncaught [OSError] and
    exits with 2. *)
Example sample_exit_statuses :
  (exists w', run_script Scenarios.sample_config Scenarios.healthy_env
                Scenarios.fresh_world = Some (0%Z, w')
              /\ fs w' !! FinalOutput = Some (Scenarios.media 12))
  /\ (exists w', run_script Scenarios.sample_config Scenarios.failing_env
                   Scenarios.fresh_world = Some (1%Z, w')
                 /\ fs w' !! FinalOutput = None)
  /\ (exists w', run_script Scenarios.sample_config Scenarios.no_manifest_env
                   Scenarios.fresh_world = Some (2%Z, w')
                 /\ main_process Scenarios.sample_config
                      Scenarios.no_manifest_env Scenarios.fresh_world
                    = Some (Raise OSError, w')).
Proof.
  repeat split; eexists; (split; [vm_compute; reflexivity|]);
    vm_compute; reflexivity.
Qed.

End ControllerFacts.

(** ** The cancellation flags *)

Module FlagFacts.
Import Effects.

(** X1: after [n] Ctrl+C signals the stop flag is set if it was set before or
    [n >= 1], and the force flag is set if it was set before, or [n >= 2], or
    [n >= 1] and the stop flag was already set: the first signal requests a
    graceful stop, the second an immediate one, later signals change nothing
    and no flag is ever cleared. *)
Theorem signal_flags_after n f :
  deliver n f
  = Flags (stop_requested f || (1 <=? n)%nat)
      (force_stop_requested f || (2 <=? n)%nat
       || ((1 <=? n)%nat && stop_requested f)).
Proof.
  induction n as [|n IH].
  - destruct f as [[] []]; reflexivity.
  - unfold deliver in *. simpl. rewrite IH.
    destruct f as [[] []], n as [|[|n]]; reflexivity.
Qed.

End FlagFacts.

(** ** The shape of a plan *)

Module PlanShape.
Import Planner PlannerFacts.







End PlanShape.

(** ** The command line *)

Module CommandLineFacts.
Import Planner PlannerFacts Controller CommandLine.
Import String.StringSyntax.
#[local] Open Scope string_scope.

(** X5: a command line that [parse_arguments] accepts has an input that is a
    file and differs from the output, a segment length and a frame rate of at
    least 1 and a thread count of at least 0; the options are returned as
    given, with [crf] and [pix_fmt] filled in by codec when they were left
    out: 19 and yuv420p10le for h265, 18 and yuv420p for h264. *)
Theorem accepted_arguments_are_valid parsed s args :
  parse_arguments parsed s = Accepted args ->
  input_is_file s = true /\ same_path s = false
  /\ (1 <= ns_segment_length args)%Z /\ (1 <= ns_framerate args)%Z
  /\ (0 <= ns_threads args)%Z
  /\ ns_codec args = ns_codec parsed
  /\ ns_segment_length args = ns_segment_length parsed
  /\ ns_framerate args = ns_framerate parsed
  /\ ns_threads args = ns_threads parsed
  /\ ns_crf args
     = Some (default (match ns_codec parsed with H265 => 19 | H264 => 18 end)%Z
               (ns_crf parsed))
  /\ ns_pix_fmt args
     = Some (default (match ns_codec parsed with
                      | H265 => "yuv420p10le" | H264 => "yuv420p" end)
               (ns_pix_fmt parsed)).
Proof.
  unfold parse_arguments. intros H.
  destruct (input_is_file s); [|done]. destruct (same_path s); [done|]. simpl in H.
  destruct (Z.leb_spec (ns_segment_length (codec_defaults parsed)) 0) as [|Hl]; [done|].
  destruct (Z.leb_spec (ns_framerate (codec_defaults parsed)) 0) as [|Hf]; [done|].
  destruct (Z.ltb_spec (ns_threads (codec_defaults parsed)) 0) as [|Ht]; [done|].
  destruct (parent_mkdir_fails s); [done|]. injection H as <-.
  unfold codec_defaults in *.
  destruct (ns_codec parsed), (ns_crf parsed), (ns_pix_fmt parsed); simpl in *;
    repeat split; first [reflexivity | lia].
Qed.

Lemma accepted_arguments_are_valid_witness :
  let parsed := Namespace H264 None None 60 0 5 in
  let args := Namespace H264 (Some 18%Z) (Some "yuv420p") 60 0 5 in
  (1 <= ns_segment_length args)%Z /\ ns_crf args = Some 18%Z.
Proof.
  intros parsed args.
  destruct (accepted_arguments_are_valid parsed (Surroundings true false false) args)
    as (_ & _ & Hl & _ & _ & _ & _ & _ & _ & Hcrf & _); [reflexivity|].
  split; [exact Hl | exact Hcrf].
Defined.



End CommandLineFacts.

(** ** A child that is left alone *)

Module SupervisorCalm.
Import Probe Effects Supervisor Observations EffectsFacts SupervisorFacts.
#[local] Open Scope M_scope.

Lemma poll_loop_calm l ts : Forall calm ts -> forall w r w',
  stop_requested (cancellation w) = false ->
  force_stop_requested (cancellation w) = false ->
  poll_loop l ts w = Some (r, w') ->
  exists (k : nat) t code,
    ts !! k = Some t /\ tick_status t = Some code /\ r = Ok (Some code)
    /\ fs w' = fs w /\ cancellation w' = cancellation w
    /\ trace w' = trace w ++ replicate k EvSleep ++ [EvExited code].
Proof.
  induction 1 as [|t rest [Hsig Hfault] _ IH]; intros w r w' Hs Hf Hrun; [done|].
  simpl in Hrun. unfold bind at 1, signals_arrive in Hrun.
  rewrite Hsig, Hfault in Hrun. unfold deliver in Hrun. simpl in Hrun.
  destruct (tick_status t) as [code|] eqn:Hst.
  - unfold bind, poll, log, ret in Hrun. simpl in Hrun. injection Hrun as <- <-.
    exists 0%nat, t, code. by repeat split.
  - unfold bind at 1, poll, ret in Hrun. unfold bind at 1, read_flags in Hrun.
    simpl in Hrun. rewrite Hf, Hs in Hrun.
    unfold bind at 1, log at 1 in Hrun. simpl in Hrun.
    apply IH in Hrun as (k & t' & code & Hk & Hcode & -> & Hfs & Hc & Htr); [|done..].
    exists (S k), t', code. simpl in *. repeat split; try done.
    by rewrite Htr, <- app_assoc.
Qed.





(** X7: when no stop is requested, no Ctrl+C arrives and no operation fails,
    [run_ffmpeg_command] only sleeps between polls until the child has
    exited: it writes no quit token and sends no signal, it returns whether
    the exit status was 0, and it leaves the flags as they were. *)
Theorem calm_child_is_never_signalled output inv w r w' :
  spawn inv = Spawned -> Forall calm (ticks inv) ->
  stop_requested (cancellation w) = false ->
  force_stop_requested (cancellation w) = false ->
  run_ffmpeg_command output inv w = Some (r, w') ->
  exists (k : nat) t code,
    ticks inv !! k = Some t /\ tick_status t = Some code
    /\ r = Ok (bool_decide (code = 0%Z))
    /\ trace w' = trace w ++ EvPopen output :: replicate k EvSleep
                           ++ [EvExited code; EvJoin]
    /\ cancellation w' = cancellation w
    /\ fs w' = child_output output inv (fs w).
Proof.
  intros Hsp Hcalm Hs Hf Hrun.
  destruct (poll_loop (shutdown inv) (ticks inv) (spawned output inv w))
    as [[r1 w1]|] eqn:Hloop.
  - destruct (poll_loop_calm (shutdown inv) (ticks inv) Hcalm
                (spawned output inv w) r1 w1 Hs Hf Hloop)
      as (k & t & code & Hk & Hcode & -> & Hfs & Hc & Htr).
    rewrite (run_spawned_ok _ _ _ _ _ Hsp Hloop) in Hrun. injection Hrun as <- <-.
    exists k, t, code. simpl in *. repeat split; try done.
    + f_equal. apply bool_decide_ext. split; [by intros [= ->]|by intros ->].
    + rewrite Htr. rewrite <- ?app_assoc. simpl. by rewrite <- ?app_assoc.
  - exfalso. unfold run_ffmpeg_command in Hrun. rewrite Hsp in Hrun.
    unfold bind at 1, log at 1 in Hrun. unfold bind at 1, write_fs at 1 in Hrun.
    unfold spawned in Hloop. simpl in Hrun.
    unfold try_except, supervise in Hrun. unfold bind at 1 in Hrun.
    by rewrite Hloop in Hrun.
Qed.

Lemma calm_child_is_never_signalled_witness :
  exists (k : nat) t code,
    ticks (Scenarios.ffmpeg_exits 0 5) !! k = Some t /\ tick_status t = Some code
    /\ Ok true = Ok (bool_decide (code = 0%Z)).
Proof.
  destruct (calm_child_is_never_signalled (SegmentPart 1)
              (Scenarios.ffmpeg_exits 0 5) Scenarios.fresh_world (Ok true)
              (World (<[SegmentPart 1 := Scenarios.media 5]>
                        (fs Scenarios.fresh_world))
                 (Flags false false)
                 [EvPopen (SegmentPart 1); EvSleep; EvExited 0; EvJoin]))
    as (k & t & code & Hk & Hcode & Hr & _);
    [reflexivity | repeat constructor | reflexivity | reflexivity
    | vm_compute; reflexivity |].
  exists k, t, code. split; [exact Hk|]. split; [exact Hcode | exact Hr].
Defined.

End SupervisorCalm.

(** ** Resuming *)

Module ResumeFacts.
Import Planner Probe Effects Supervisor Controller Observations.
Import PlannerFacts EffectsFacts SupervisorFacts ControllerFacts.
#[local] Open Scope M_scope.

Lemma probe_events_inspect n f :
  Forall inspection (probe_events (SegmentFinal n) f).
Proof.
  unfold probe_events. destruct (video_probe_suffices f); repeat constructor.
Qed.

(** The scan from index [i] on: it keeps the longest prefix of valid
    artifacts, and stops at a missing artifact, which it leaves alone, or at
    an invalid one, which it deletes. *)
Lemma resume_scan_spec segs : forall i completed w,
  exists (d : nat) w' evs,
    resume_scan segs i completed i w
    = Some (Ok (completed ++ (SegmentFinal <$> seq (S i) d), (i + d)%nat), w')
    /\ (d <= length segs)%nat
    /\ cancellation w' = cancellation w
    /\ trace w' = trace w ++ evs
    /\ (forall j, (j < d)%nat ->
          exists seg f,
            segs !! j = Some seg /\ fs w !! SegmentFinal (S (i + j)) = Some f
            /\ artifact_valid (seg_duration seg) (get_file_duration (Some f)) = true)
    /\ ((fs w' = fs w /\ Forall inspection evs
         /\ ((d < length segs)%nat -> fs w !! SegmentFinal (S (i + d)) = None))
        \/ (exists seg f,
              segs !! d = Some seg /\ fs w !! SegmentFinal (S (i + d)) = Some f
              /\ artifact_valid (seg_duration seg) (get_file_duration (Some f)) = false
              /\ fs w' = delete (SegmentFinal (S (i + d))) (fs w)
              /\ last evs = Some (EvUnlink (SegmentFinal (S (i + d)))))).
Proof.
  induction segs as [|seg rest IH]; intros i completed w.
  { exists 0%nat, w, []. simpl. rewrite !app_nil_r, Nat.add_0_r.
    split; [done|]. split; [done|]. split; [done|]. split; [done|].
    split; [intros j Hj; lia|]. left. split; [done|]. split; [constructor|lia]. }
  destruct (fs w !! SegmentFinal (S i)) as [f|] eqn:Hf.
  2:{ rewrite resume_scan_missing by done.
      eexists 0%nat, _, [EvExists (SegmentFinal (S i))]. simpl.
      rewrite !app_nil_r, Nat.add_0_r.
      split; [done|]. split; [lia|]. split; [done|]. split; [done|].
      split; [intros j Hj; lia|]. left. split; [done|].
      split; [repeat constructor|done]. }
  rewrite (resume_scan_present seg rest i completed i w f Hf).
  destruct (artifact_valid (seg_duration seg) (get_file_duration (Some f))) eqn:Hok.
  - set (w1 := World (fs w) (cancellation w)
                 (trace w ++ EvExists (SegmentFinal (S i))
                          :: probe_events (SegmentFinal (S i)) (Some f))).
    destruct (IH (S i) (completed ++ [SegmentFinal (S i)]) w1)
      as (d & w' & evs & Hrun & Hd & Hc & Htr & Hvalid & Hstop).
    exists (S d), w', (EvExists (SegmentFinal (S i))
                        :: probe_events (SegmentFinal (S i)) (Some f) ++ evs).
    split.
    { simpl. rewrite Hrun. rewrite <- app_assoc. simpl.
      by replace (S (i + d)) with (i + S d)%nat by lia. }
    split; [simpl; lia|]. split; [done|].
    split; [rewrite Htr; simpl; by rewrite <- app_assoc|].
    split.
    { intros [|j] Hj.
      - exists seg, f. by rewrite Nat.add_0_r.
      - destruct (Hvalid j) as (seg' & f' & ? & ? & ?); [lia|].
        exists seg', f'. simpl in *.
        by replace (i + S j)%nat with (S (i + j)) by lia. }
    replace (i + S d)%nat with (S i + d)%nat by lia.
    destruct Hstop as [(Hfs & Hevs & Hnone)|(seg' & f' & ? & ? & ? & ? & Hlast)].
    + left. split; [done|]. split.
      * apply Forall_cons. split; [done|]. apply Forall_app. split; [|done].
        apply probe_events_inspect.
      * simpl. intros Hlt. apply Hnone. lia.
    + right. exists seg', f'. repeat split; try done.
      rewrite app_comm_cons, last_app, Hlast. done.
  - eexists 0%nat, _, (EvExists (SegmentFinal (S i))
                       :: probe_events (SegmentFinal (S i)) (Some f)
                       ++ [EvUnlink (SegmentFinal (S i))]).
    simpl. rewrite !app_nil_r, Nat.add_0_r.
    split; [done|]. split; [lia|]. split; [done|].
    split; [by rewrite <- app_assoc|].
    split; [intros j Hj; lia|]. right. exists seg, f.
    repeat split; try done.
    by rewrite app_comm_cons, last_snoc.
Qed.

(** X8: when the resume scan returns, it returns the artifacts 1 .. d of a
    prefix of the plan, all of them valid, with resume index d; it stopped at
    the first artifact that is missing, and then nothing changed on disk, or
    invalid, and then that artifact was deleted and nothing else. *)
Theorem scan_keeps_longest_valid_prefix segs w completed idx w' :
  resume_scan segs 0 [] 0 w = Some (Ok (completed, idx), w') ->
  exists d : nat,
    completed = SegmentFinal <$> seq 1 d /\ idx = d
    /\ (d <= length segs)%nat
    /\ cancellation w' = cancellation w
    /\ (forall j, (j < d)%nat -> artifact_at (fs w) segs j true)
    /\ ((fs w' = fs w
         /\ ((d < length segs)%nat -> fs w !! SegmentFinal (S d) = None))
        \/ (artifact_at (fs w) segs d false
            /\ fs w' = delete (SegmentFinal (S d)) (fs w))).
Proof.
  intros Hscan.
  destruct (resume_scan_spec segs 0 [] w)
    as (d & w1 & evs & Hrun & Hd & Hc & _ & Hvalid & Hstop).
  rewrite Hrun in Hscan. injection Hscan as <- <- <-. simpl in *.
  exists d. split; [done|]. split; [done|]. split; [done|]. split; [done|].
  split; [intros j Hj; by apply Hvalid|].
  destruct Hstop as [(Hfs & _ & Hnone)|(seg & f & ? & ? & ? & ? & _)].
  - left. done.
  - right. split; [|done]. by exists seg, f.
Qed.

Lemma scan_keeps_longest_valid_prefix_witness :
  exists w' (d : nat),
    resume_scan Scenarios.sample_plan 0 [] 0 Scenarios.interrupted_world
    = Some (Ok ([SegmentFinal 1], 1%nat), w')
    /\ [SegmentFinal 1] = SegmentFinal <$> seq 1 d
    /\ fs w' !! SegmentFinal 3 = Some (Scenarios.media 2).
Proof.
  assert (Hrun : exists w',
             resume_scan Scenarios.sample_plan 0 [] 0 Scenarios.interrupted_world
             = Some (Ok ([SegmentFinal 1], 1%nat), w')
             /\ fs w' !! SegmentFinal 3 = Some (Scenarios.media 2)).
  { eexists. split; [vm_compute; reflexivity|reflexivity]. }
  destruct Hrun as (w' & Hrun & Hkept).
  destruct (scan_keeps_longest_valid_prefix _ _ _ _ _ Hrun) as (d & Hd & _).
  exists w', d. split; [exact Hrun|]. split; [exact Hd | exact Hkept].
Defined.

(** X9: when every planned segment has a valid final artifact, scan and
    encoding loop return all artifacts, leave the file system and the flags
    unchanged and only look at final artifacts: nothing is encoded and
    nothing is deleted. *)
Theorem complete_run_is_not_repeated c e segs w :
  (forall j, (j < length segs)%nat -> artifact_at (fs w) segs j true) ->
  exists w' evs,
    resume_and_encode c e segs w
    = Some (Ok (SegmentFinal <$> seq 1 (length segs)), w')
    /\ fs w' = fs w /\ cancellation w' = cancellation w
    /\ trace w' = trace w ++ evs /\ Forall inspection evs.
Proof.
  intros Hall.
  destruct (resume_scan_spec segs 0 [] w)
    as (d & w' & evs & Hrun & Hd & Hc & Htr & _ & Hstop).
  assert (Hfull : d = length segs /\ fs w' = fs w /\ Forall inspection evs).
  { destruct Hstop as [(Hfs & Hevs & Hnone)|(seg & f & Hseg & Hf & Hbad & _)].
    - split; [|done]. destruct (decide (d < length segs)%nat) as [Hlt|]; [|lia].
      destruct (Hall d Hlt) as (? & ? & _ & Hf & _). simpl in Hnone.
      rewrite Hnone in Hf; done.
    - assert (Hlt : (d < length segs)%nat) by by eapply lookup_lt_Some.
      destruct (Hall d Hlt) as (seg' & f' & Hseg' & Hf' & Hok). simpl in *.
      congruence. }
  destruct Hfull as (-> & Hfs & Hevs).
  exists w', evs. unfold resume_and_encode.
  rewrite (bind_ok _ _ _ _ _ Hrun). simpl. rewrite drop_all. by simpl.
Qed.

Lemma complete_run_is_not_repeated_witness :
  exists w' evs,
    resume_and_encode Scenarios.sample_config Scenarios.healthy_env
      [Segment 0 5 5]
      (World {[SegmentFinal 1 := Scenarios.media 5]} (Flags false false) [])
    = Some (Ok [SegmentFinal 1], w')
    /\ fs w' = {[SegmentFinal 1 := Scenarios.media 5]}
    /\ cancellation w' = Flags false false
    /\ trace w' = evs /\ Forall inspection evs.
Proof.
  destruct (complete_run_is_not_repeated Scenarios.sample_config
              Scenarios.healthy_env [Segment 0 5 5]
              (World {[SegmentFinal 1 := Scenarios.media 5]} (Flags false false) []))
    as (w' & evs & Hrun & Hfs & Hc & Htr & Hevs).
  - intros [|j] Hj; [|simpl in Hj; lia].
    exists (Segment 0 5 5), (Scenarios.media 5). repeat split; reflexivity.
  - exists w', evs. split; [exact Hrun|]. split; [exact Hfs|]. split; [exact Hc|].
    split; [exact Htr | exact Hevs].
Defined.

End ResumeFacts.

(** ** The encoding loop *)

Module LoopFacts.
Import Planner Probe Effects Supervisor Controller Observations.
Import PlannerFacts EffectsFacts SupervisorFacts ControllerFacts.
Import SupervisorCalm ResumeFacts.
#[local] Open Scope M_scope.

Lemma encoded_app a b : encoded (a ++ b) = encoded a ++ encoded b.
Proof. apply omap_app. Qed.

Lemma encoded_none (P : event -> Prop) evs :
  (forall ev, P ev -> encoded_segment ev = None) -> Forall P evs -> encoded evs = [].
Proof.
  intros HP Hevs. induction Hevs as [|ev evs Hev _ IH]; [done|].
  unfold encoded in *. simpl. by rewrite (HP ev Hev).
Qed.

Lemma supervisor_encodes_nothing output evs :
  Forall (supervisor_event output) evs -> encoded evs = [].
Proof. apply encoded_none. by intros []. Qed.

Lemma inspections_encode_nothing evs : Forall inspection evs -> encoded evs = [].
Proof. apply encoded_none. by intros []. Qed.

Lemma promote_spec e n w w' :
  promote e n w = Some (Ok true, w') ->
  exists f, fs w !! SegmentPart n = Some f
            /\ w' = World (<[SegmentFinal n := f]> (delete (SegmentPart n) (fs w)))
                      (cancellation w)
                      (trace w ++ [EvMove (SegmentPart n) (SegmentFinal n)]).
Proof.
  unfold promote, bind, read_fs, log, write_fs, ret. simpl.
  destruct (fs w !! SegmentPart n) as [f|]; [|done].
  destruct (move_fails e n); simpl; [done|]. intros [= <-]. by exists f.
Qed.

(** The encoder starts of the loop entered at index [i], and the artifacts
    it completes. *)
Lemma encoding_loop_order c e segs : forall i completed w r w',
  encoding_loop c e segs i completed w = Some (r, w') ->
  exists (k m : nat) evs,
    r = Ok (completed ++ (SegmentFinal <$> seq (S i) k))
    /\ trace w' = trace w ++ evs
    /\ encoded evs = seq (S i) m
    /\ (k <= m <= S k)%nat /\ (m <= length segs)%nat
    /\ forall n, (i < n <= i + k)%nat -> is_Some (fs w' !! SegmentFinal n).
Proof.
  induction segs as [|seg rest IH]; intros i completed w r w' Hrun.
  { injection Hrun as <- <-. exists 0%nat, 0%nat, []. simpl. rewrite !app_nil_r.
    repeat split; try done; try lia; intros n Hn; lia. }
  destruct (stop_requested (cancellation w)) eqn:Hstop.
  { simpl in Hrun. unfold bind, read_flags in Hrun. rewrite Hstop in Hrun.
    injection Hrun as <- <-. exists 0%nat, 0%nat, []. simpl. rewrite !app_nil_r.
    repeat split; try done; try lia; intros n Hn; lia. }
  rewrite encoding_loop_first in Hrun by done.
  set (w2 := World (delete (SegmentPart (S i)) (fs w)) (cancellation w)
               (trace w ++ [EvUnlink (SegmentPart (S i)); EvEncode (S i)])) in *.
  unfold bind at 1 in Hrun.
  destruct ((if pools_conflict c then ret false
             else run_ffmpeg_command (SegmentPart (S i)) (segment_ffmpeg e (S i)))
              w2) as [[r3 w3]|] eqn:Henc; [|done].
  destruct (encoder_call_result _ _ _ _ _ _ Henc) as (b & evs3 & -> & Htr3 & Hevs3).
  apply supervisor_encodes_nothing in Hevs3.
  destruct b.
  2:{ unfold bind, log, ret in Hrun. injection Hrun as <- <-.
      exists 0%nat, 1%nat, ([EvUnlink (SegmentPart (S i)); EvEncode (S i)] ++ evs3
                             ++ [EvSegmentFailed (S i)]).
      simpl. rewrite app_nil_r. split; [done|].
      split; [rewrite Htr3; unfold w2; simpl; by rewrite <- !app_assoc|].
      split; [unfold encoded in *; rewrite !omap_app, Hevs3; reflexivity|].
      split; [lia|]. split; [lia|]. intros n Hn. lia. }
  unfold bind at 1 in Hrun.
  destruct (promote e (S i) w3) as [[r4 w4]|] eqn:Hprom; [|done].
  destruct (promote_result _ _ _ _ _ Hprom) as [[-> Htr4]|[-> ->]].
  2:{ unfold bind, log, ret in Hrun. injection Hrun as <- <-.
      exists 0%nat, 1%nat, ([EvUnlink (SegmentPart (S i)); EvEncode (S i)] ++ evs3
                             ++ [EvMoveFailed (S i)]).
      simpl. rewrite app_nil_r. split; [done|].
      split; [rewrite Htr3; unfold w2; simpl; by rewrite <- !app_assoc|].
      split; [unfold encoded in *; rewrite !omap_app, Hevs3; reflexivity|].
      split; [lia|]. split; [lia|]. intros n Hn. lia. }
  destruct (promote_spec _ _ _ _ Hprom) as (f & _ & Hw4).
  unfold bind at 1 in Hrun. unfold signals_arrive at 1 in Hrun.
  pose proof (encoding_loop_changes _ _ _ _ _ _ _ _ Hrun) as (_ & Hframe & _).
  apply IH in Hrun as (k & m & evs & -> & Htr & Henc' & Hkm & Hm & Hex).
  simpl in Htr, Hframe.
  exists (S k), (S m), ([EvUnlink (SegmentPart (S i)); EvEncode (S i)] ++ evs3
                        ++ [EvMove (SegmentPart (S i)) (SegmentFinal (S i))] ++ evs).
  split; [by rewrite <- app_assoc|].
  split; [rewrite Htr, Htr4, Htr3; unfold w2; simpl; by rewrite <- !app_assoc|].
  split.
  { unfold encoded in *. rewrite !omap_app, Hevs3, Henc'. reflexivity. }
  split; [lia|]. split; [simpl; lia|].
  intros n Hn. destruct (decide (n = S i)) as [->|Hne].
  - rewrite Hframe by (simpl; lia). rewrite Hw4. simpl.
    rewrite lookup_insert_eq. eauto.
  - apply Hex. lia.
Qed.

(** X10: when scan and encoding loop return, the encoder was started for the
    segments d+1, d+2, ... in this order and once each, where d is the
    number of valid artifacts the scan kept; the artifacts 1 .. d+k are
    returned, and the encoder was started k times, or k+1 times when the
    last start did not complete its segment. *)
Theorem segments_encoded_in_order c e segs w completed w' :
  resume_and_encode c e segs w = Some (Ok completed, w') ->
  exists (d k m : nat) evs,
    completed = SegmentFinal <$> seq 1 (d + k)
    /\ trace w' = trace w ++ evs
    /\ encoded evs = seq (S d) m
    /\ (k <= m <= S k)%nat /\ (d + m <= length segs)%nat
    /\ (forall j, (j < d)%nat -> artifact_at (fs w) segs j true).
Proof.
  unfold resume_and_encode. intros Hrun.
  destruct (resume_scan_spec segs 0 [] w)
    as (d & w1 & evs1 & Hscan & Hd & _ & Htr1 & Hvalid & Hstop).
  rewrite (bind_ok _ _ _ _ _ Hscan) in Hrun. simpl in Hrun.
  apply encoding_loop_order in Hrun as (k & m & evs2 & Hr & Htr2 & Henc & Hkm & Hm & _).
  injection Hr as ->. rewrite length_drop in Hm.
  exists d, k, m, (evs1 ++ evs2).
  split; [by rewrite seq_app, fmap_app|].
  split; [by rewrite Htr2, Htr1, app_assoc|].
  split.
  { rewrite encoded_app, Henc.
    assert (encoded evs1 = []) as ->; [|done].
    destruct Hstop as [(_ & Hevs & _)|(_ & _ & _ & _ & _ & _ & Hlast)].
    - by apply inspections_encode_nothing.
    - pose proof (resume_scan_changes _ _ _ _ _ _ _ Hscan) as ((evs & Htr & Hevs) & _).
      rewrite Htr1 in Htr. apply app_inv_head in Htr as <-.
      revert Hevs. apply encoded_none. by intros []. }
  split; [done|]. split; [lia|]. intros j Hj. by apply Hvalid.
Qed.

Lemma segments_encoded_in_order_witness :
  exists (d k m : nat) evs,
    [SegmentFinal 1; SegmentFinal 2; SegmentFinal 3]
    = SegmentFinal <$> seq 1 (d + k)
    /\ encoded evs = seq (S d) m /\ (k <= m <= S k)%nat.
Proof.
  assert (Hrun : exists w',
             resume_and_encode Scenarios.sample_config Scenarios.healthy_env
               Scenarios.sample_plan Scenarios.interrupted_world
             = Some (Ok [SegmentFinal 1; SegmentFinal 2; SegmentFinal 3], w')).
  { eexists. vm_compute. reflexivity. }
  destruct Hrun as (w' & Hrun).
  destruct (segments_encoded_in_order _ _ _ _ _ _ Hrun)
    as (d & k & m & evs & Hr & _ & Henc & Hkm & _).
  exists d, k, m, evs. split; [exact Hr|]. split; [exact Henc | exact Hkm].
Defined.

(** X11: every path that scan and encoding loop return as completed is the
    final artifact of a planned segment and exists on disk when the loop
    ends. *)
Theorem completed_artifacts_exist c e segs w completed w' :
  resume_and_encode c e segs w = Some (Ok completed, w') ->
  forall p, p ∈ completed ->
    exists n f, p = SegmentFinal n /\ (1 <= n <= length segs)%nat
                /\ fs w' !! p = Some f.
Proof.
  unfold resume_and_encode. intros Hrun.
  destruct (resume_scan_spec segs 0 [] w)
    as (d & w1 & evs1 & Hscan & Hd & _ & Htr1 & Hvalid & Hstop).
  rewrite (bind_ok _ _ _ _ _ Hscan) in Hrun. simpl in Hrun.
  pose proof (encoding_loop_changes _ _ _ _ _ _ _ _ Hrun) as (_ & Hframe & _).
  apply encoding_loop_order in Hrun as (k & m & evs2 & Hr & _ & _ & Hkm & Hm & Hex).
  injection Hr as ->. rewrite length_drop in Hm.
  intros p Hp. rewrite <- fmap_app, <- seq_app in Hp.
  apply list_elem_of_fmap in Hp as (n & -> & Hn).
  apply elem_of_seq in Hn.
  assert (Hsome : is_Some (fs w' !! SegmentFinal n)).
  { destruct (decide (n <= d)%nat) as [Hle|Hgt]; [|apply Hex; lia].
    rewrite Hframe by (simpl; lia).
    destruct (Hvalid (n - 1)%nat) as (seg & f & _ & Hf & _); [lia|].
    simpl in Hf. replace (S (n - 1)) with n in Hf by lia.
    assert (Hkeep : fs w1 !! SegmentFinal n = fs w !! SegmentFinal n).
    { destruct Hstop as [(-> & _)|(_ & _ & _ & _ & _ & -> & _)]; [done|].
      apply lookup_delete_ne. simpl. intros [= ?]. lia. }
    rewrite Hkeep, Hf. eauto. }
  destruct Hsome as [f Hf]. exists n, f. split; [done|]. split; [lia|done].
Qed.

Lemma completed_artifacts_exist_witness :
  exists n f, SegmentFinal 2 = SegmentFinal n /\ (1 <= n <= 3)%nat
              /\ f = Scenarios.media 5.
Proof.
  assert (Hrun : exists w',
             resume_and_encode Scenarios.sample_config Scenarios.healthy_env
               Scenarios.sample_plan Scenarios.interrupted_world
             = Some (Ok [SegmentFinal 1; SegmentFinal 2; SegmentFinal 3], w')
             /\ fs w' !! SegmentFinal 2 = Some (Scenarios.media 5)).
  { eexists. split; [vm_compute; reflexivity|reflexivity]. }
  destruct Hrun as (w' & Hrun & Hfs).
  destruct (completed_artifacts_exist _ _ _ _ _ _ Hrun (SegmentFinal 2))
    as (n & f & Hn & Hrange & Hf).
  - apply list_elem_of_further, list_elem_of_here.
  - exists n, f. split; [exact Hn|]. split; [exact Hrange|].
    rewrite Hfs in Hf. by injection Hf.
Defined.

(** *** Orphaned partial artifacts *)

Lemma unlink_all_spec ps : forall w,
  unlink_all ps w
  = Some (Ok tt, World (foldl (fun m p => delete p m) (fs w) ps) (cancellation w)
                   (trace w ++ (EvUnlink <$> ps))).
Proof.
  induction ps as [|p ps IH]; intros w; simpl.
  - unfold ret. destruct w. simpl. by rewrite app_nil_r.
  - unfold bind at 1, unlink_missing_ok, bind at 1, log at 1, write_fs. simpl.
    rewrite IH. simpl. by rewrite <- app_assoc.
Qed.

Lemma lookup_foldl_delete (ps : list path) : forall (m : gmap path file) q,
  foldl (fun m p => delete p m) m ps !! q
  = if decide (q ∈ ps) then None else m !! q.
Proof.
  induction ps as [|p ps IH]; intros m q; simpl.
  - destruct (decide (q ∈ [])) as [Hin|]; [by apply elem_of_nil in Hin|done].
  - rewrite IH. destruct (decide (q ∈ ps)) as [Hin|Hout].
    + rewrite decide_True; [done|by apply list_elem_of_further].
    + destruct (decide (q = p)) as [->|Hne].
      * rewrite decide_True by apply list_elem_of_here. apply lookup_delete_eq.
      * rewrite decide_False; [by apply lookup_delete_ne|].
        intros [?|?]%elem_of_cons; done.
Qed.

Lemma cleanup_orphans_spec w :
  exists w',
    cleanup_orphans w = Some (Ok tt, w')
    /\ cancellation w' = cancellation w
    /\ forall p, fs w' !! p
                 = match fs w !! p with
                   | Some f => if is_orphan (p, f) then None else Some f
                   | None => None
                   end.
Proof.
  unfold cleanup_orphans, bind, read_fs. rewrite unlink_all_spec.
  eexists. split; [done|]. split; [done|]. intros p. cbn [fs].
  rewrite lookup_foldl_delete.
  destruct (decide (p ∈ (filter (fun p => is_orphan p = true)
                           (map_to_list (fs w))).*1)) as [Hin|Hout].
  - apply list_elem_of_fmap in Hin as ([q f] & -> & Hin).
    apply list_elem_of_filter in Hin as [Horph Hin].
    apply elem_of_map_to_list in Hin. change ((q, f).1) with q.
    by rewrite Hin, Horph.
  - destruct (fs w !! p) as [f|] eqn:Hf; [|done].
    destruct (is_orphan (p, f)) eqn:Horph; [|done].
    exfalso. apply Hout. apply list_elem_of_fmap. exists (p, f). split; [done|].
    apply list_elem_of_filter. split; [done|]. by apply elem_of_map_to_list.
Qed.

(** X12: when the cleanup before planning returns, every partial artifact
    that is not a directory is gone and every other entry of the file system
    is as it was. *)
Theorem orphaned_parts_are_removed w w' :
  cleanup_orphans w = Some (Ok tt, w') ->
  cancellation w' = cancellation w
  /\ (forall p f, fs w !! p = Some f -> is_orphan (p, f) = true ->
        fs w' !! p = None)
  /\ (forall p, (forall f, fs w !! p = Some f -> is_orphan (p, f) = false) ->
        fs w' !! p = fs w !! p).
Proof.
  intros Hrun. destruct (cleanup_orphans_spec w) as (w1 & Hrun1 & Hc & Hfs).
  rewrite Hrun in Hrun1. injection Hrun1 as <-.
  split; [done|]. split.
  - intros p f Hf Horph. by rewrite Hfs, Hf, Horph.
  - intros p Hkeep. rewrite Hfs. destruct (fs w !! p) as [f|] eqn:Hf; [|done].
    by rewrite (Hkeep f).
Qed.

Lemma orphaned_parts_are_removed_witness :
  exists w',
    cleanup_orphans
      (World {[SegmentFinal 1 := Scenarios.media 5;
               SegmentPart 2 := Scenarios.media 1]} (Flags false false) [])
    = Some (Ok tt, w')
    /\ fs w' !! SegmentPart 2 = None
    /\ fs w' !! SegmentFinal 1 = Some (Scenarios.media 5).
Proof.
  assert (Hrun : exists w',
             cleanup_orphans
               (World {[SegmentFinal 1 := Scenarios.media 5;
                        SegmentPart 2 := Scenarios.media 1]} (Flags false false) [])
             = Some (Ok tt, w')).
  { eexists. vm_compute. reflexivity. }
  destruct Hrun as (w' & Hrun). exists w'. split; [exact Hrun|].
  destruct (orphaned_parts_are_removed _ _ Hrun) as (_ & Hgone & Hkept).
  split.
  - by apply (Hgone (SegmentPart 2) (Scenarios.media 1)).
  - rewrite Hkept; [reflexivity|]. intros f _. reflexivity.
Defined.

(** *** Progress of the encoding loop *)



End LoopFacts.

(** ** The startup *)

Module StartupFacts.
Import Planner Probe Effects Supervisor Controller Observations.
Import PlannerFacts EffectsFacts SupervisorFacts ControllerFacts.
Import SupervisorCalm ResumeFacts LoopFacts.
#[local] Open Scope M_scope.

Lemma encode_phase_unfold c e :
  encode_phase c e
  = (signals_arrive (signals_at_startup e);;
     prepared ← prepare c e;
     after_prepare c e prepared.2).
Proof. reflexivity. Qed.


(** With the segments directory available the startup reaches the test of
    the input's duration, having touched the directory and the rerun record
    only. *)
Lemma prepare_reaches_check c e w :
  segments_dir_available e w ->
  exists w4 evs audio,
    trace w4 = trace w ++ evs /\ Forall probing_event evs
    /\ cancellation w4 = cancellation w
    /\ (forall p, ~ startup_path p -> fs w4 !! p = fs w !! p)
    /\ prepare c e w
       = if Qlt_le_dec 0 (get_file_duration (fs w !! InputFile))
         then bind (check_final_output c e)
                (fun _ => ret (audio, get_file_duration (fs w !! InputFile))) w4
         else Some (Exit 1, w4).
Proof.
  intros Hav. unfold prepare.
  destruct (make_segments_dir_result e w) as (r1 & w1 & Hmk & [[-> _]|[_ Hno]]);
    [|done].
  assert (H1 : cancellation w1 = cancellation w
               /\ exists evs1, trace w1 = trace w ++ evs1 /\ Forall probing_event evs1).
  { revert Hmk. unfold make_segments_dir, bind, read_fs, log, write_fs, sys_exit.
    simpl. destruct (fs w !! SegmentsDir) as [[]|]; destruct (mkdir_fails e);
      simpl; intros [= <-]; simpl; (split; [done|]);
      exists [EvMkdir]; split; (done || by repeat constructor). }
  destruct H1 as (Hc1 & evs1 & Htr1 & Hevs1).
  pose proof (make_segments_dir_changes e _ _ _ Hmk) as (_ & Hfs1 & _).
  rewrite (bind_ok _ _ _ _ _ Hmk).
  destruct (save_rerun_command_result e w1) as (w2 & Hsave).
  assert (H2 : cancellation w2 = cancellation w1
               /\ exists evs2, trace w2 = trace w1 ++ evs2 /\ Forall probing_event evs2).
  { revert Hsave. unfold save_rerun_command, bind, log, write_fs.
    destruct (rerun_write_fails e); simpl; intros [= <-]; simpl; (split; [done|]);
      eexists; split; (done || by repeat constructor). }
  destruct H2 as (Hc2 & evs2 & Htr2 & Hevs2).
  pose proof (save_rerun_command_changes e _ _ _ Hsave) as (_ & Hfs2 & _).
  rewrite (bind_ok _ _ _ _ _ Hsave).
  assert (Hin : fs w2 !! InputFile = fs w !! InputFile).
  { rewrite Hfs2, Hfs1; [done|by intros [?|?]..]. }
  unfold probe at 1. unfold bind at 1. unfold bind at 1. unfold log at 1.
  unfold bind at 1. unfold read_fs at 1. unfold ret at 1.
  unfold bind at 1. rewrite probe_duration_spec. simpl. rewrite Hin.
  exists (World (fs w2) (cancellation w2)
            ((trace w2 ++ [EvProbe InputFile Audio])
             ++ probe_events InputFile (fs w !! InputFile))),
    (evs1 ++ evs2 ++ EvProbe InputFile Audio
       :: probe_events InputFile (fs w !! InputFile)),
    (has_audio_stream (get_stream_info (fs w !! InputFile) Audio)).
  split; [|split; [|split; [|split; [|by destruct (Qlt_le_dec _ _)]]]].
  - simpl. rewrite Htr2, Htr1, <- !app_assoc. done.
  - apply Forall_app. split; [done|]. apply Forall_app. split; [done|].
    apply Forall_cons. split; [done|].
    unfold probe_events. destruct (video_probe_suffices _); by repeat constructor.
  - simpl. congruence.
  - intros p Hp. simpl. by rewrite Hfs2, Hfs1.
Qed.



End StartupFacts.

(** ** Concatenation and the final outcome *)

Module OutcomeFacts.
Import Planner Probe Effects Supervisor Controller Observations.
Import PlannerFacts EffectsFacts SupervisorFacts ControllerFacts.
Import SupervisorCalm ResumeFacts LoopFacts StartupFacts.
#[local] Open Scope M_scope.

Lemma plan_changes (P : event -> Prop) (Q : path -> Prop) c d :
  guarantees (changes P Q) (plan c d).
Proof. intros w r w' H. apply plan_result in H as [-> _]. apply changes_refl. Qed.

Lemma resume_and_encode_changes c e segs :
  guarantees (changes (fun _ => True) segment_path) (resume_and_encode c e segs).
Proof.
  unfold resume_and_encode. apply guarantees_bind.
  - intros w r w' H. apply resume_scan_changes in H. revert H.
    by apply changes_weaken.
  - intros a w r w' H. apply encoding_loop_changes in H. revert H.
    apply changes_weaken; [done|]. by intros [].
Qed.

Lemma after_prepare_changes c e d :
  guarantees (changes (fun _ => True) segment_path) (after_prepare c e d).
Proof.
  unfold after_prepare.
  apply guarantees_bind.
  { intros w r w' H. apply cleanup_orphans_changes in H. revert H.
    by apply changes_weaken. }
  intros _. apply guarantees_bind; [apply plan_changes|intros segs].
  apply guarantees_bind; [apply resume_and_encode_changes|intros completed].
  repeat guarantee_step.
Qed.

(** A child that was started shows in the trace first. *)
Lemma run_spawned_trace output inv w r w' :
  spawn inv = Spawned -> run_ffmpeg_command output inv w = Some (r, w') ->
  exists rest, trace w' = trace w ++ EvPopen output :: rest.
Proof.
  intros Hsp Hrun.
  destruct (poll_loop (shutdown inv) (ticks inv) (spawned output inv w))
    as [[r1 w1]|] eqn:Hloop.
  - pose proof (poll_loop_changes output _ _ _ _ _ Hloop) as ((evs & Htr & _) & _).
    simpl in Htr.
    destruct r1 as [rc|code|ex].
    + rewrite (run_spawned_ok _ _ _ _ _ Hsp Hloop) in Hrun. injection Hrun as _ <-.
      simpl. rewrite Htr, <- !app_assoc. simpl. eauto.
    + apply poll_loop_status in Hloop as (? & _ & _ & []).
    + rewrite (run_spawned_raise _ _ _ _ _ Hsp Hloop) in Hrun.
      injection Hrun as _ <-. simpl. rewrite Htr, <- !app_assoc. simpl. eauto.
  - exfalso. unfold run_ffmpeg_command in Hrun. rewrite Hsp in Hrun.
    unfold bind at 1, log at 1 in Hrun. unfold bind at 1, write_fs at 1 in Hrun.
    unfold spawned in Hloop. simpl in Hrun.
    unfold try_except, supervise in Hrun. unfold bind at 1 in Hrun.
    by rewrite Hloop in Hrun.
Qed.

Lemma remove_manifest_changes e :
  guarantees (changes manifest_cleanup_event (fun p => p = Filelist))
    (remove_manifest e).
Proof.
  unfold remove_manifest. repeat guarantee_step.
Qed.

Lemma concatenate_segments_frame e files :
  guarantees (changes concat_event concat_path) (concatenate_segments e files).
Proof.
  unfold concatenate_segments, concatenate_segments_with, write_manifest.
  destruct files as [|p files]; [apply guarantees_ret|].
  apply guarantees_try_finally.
  2:{ intros w r w' H. apply remove_manifest_changes in H. revert H.
      apply changes_weaken; [|intros ? ->; by left].
      intros ev Hev. destruct ev; simpl in *; try done; by repeat case_match. }
  repeat guarantee_step.
  all: try (apply guarantees_write_fs; intros m q Hq; apply lookup_insert_ne;
            intros <-; apply Hq; by left).
  all: intros w r w' Hrun; apply run_ffmpeg_command_changes in Hrun;
    revert Hrun; apply changes_weaken; [|intros ? ->; by right];
    intros ev Hev; destruct ev; simpl in *; try done; by subst.
Qed.

(** X14: [concatenate_segments] changes no file but the manifest and the
    destination, so the artifacts are only read; ffmpeg is started only for
    a list that is not empty and only after the manifest was written. *)
Theorem concatenation_touches_manifest_and_destination e files w r w' :
  concatenate_segments e files w = Some (r, w') ->
  (forall p, p <> Filelist -> p <> FinalOutput -> fs w' !! p = fs w !! p)
  /\ exists evs,
       trace w' = trace w ++ evs /\ Forall concat_event evs
       /\ (EvPopen FinalOutput ∈ evs ->
           files <> [] /\ manifest_write e = ManifestWritten
           /\ exists rest, evs = EvWrite Filelist :: EvPopen FinalOutput :: rest).
Proof.
  intros Hrun.
  pose proof (concatenate_segments_frame _ _ _ _ _ Hrun) as ((evs & Htr & Hevs) & Hfs & _).
  split; [intros p H1 H2; apply Hfs; by intros [?|?]|].
  exists evs. split; [done|]. split; [done|]. intros Hin.
  unfold concatenate_segments, concatenate_segments_with in Hrun.
  destruct files as [|p files].
  { injection Hrun as _ <-. rewrite <- (app_nil_r (trace w)) in Htr at 1.
    apply app_inv_head in Htr as <-. by apply elem_of_nil in Hin. }
  split; [done|]. unfold try_finally in Hrun.
  destruct ((write_manifest e (p :: files);;
             run_ffmpeg_command FinalOutput (concat_ffmpeg e)) w)
    as [[r1 w1]|] eqn:Hbody; [|done].
  destruct (remove_manifest e w1) as [[r2 w2]|] eqn:Hrm; [|done].
  pose proof (remove_manifest_changes _ _ _ _ Hrm) as ((evs2 & Htr2 & Hevs2) & _).
  assert (Hw' : w' = w2) by (destruct r2; by injection Hrun as _ <-).
  subst w2.
  assert (Hno2 : EvPopen FinalOutput ∉ evs2).
  { intros Hin2. rewrite Forall_forall in Hevs2. by apply Hevs2 in Hin2. }
  unfold write_manifest in Hbody.
  destruct (manifest_write e) eqn:Hmw.
  - split; [done|]. unfold bind at 1 in Hbody. unfold bind at 1 in Hbody.
    unfold log at 1 in Hbody. unfold write_fs at 1 in Hbody. simpl in Hbody.
    assert (Hdec : spawn (concat_ffmpeg e) = Spawned
                   \/ spawn (concat_ffmpeg e) <> Spawned)
      by (destruct (spawn (concat_ffmpeg e)); [by left|by right..]).
    destruct Hdec as [Hsp|Hsp].
    + apply (run_spawned_trace _ _ _ _ _ Hsp) in Hbody as (rest & Htr1).
      simpl in Htr1. exists (rest ++ evs2).
      rewrite Htr2, Htr1, <- !app_assoc in Htr. simpl in Htr.
      by apply app_inv_head in Htr.
    + rewrite run_not_spawned in Hbody by done. injection Hbody as _ <-.
      simpl in Htr2. rewrite Htr2, <- app_assoc in Htr.
      apply app_inv_head in Htr as <-.
      apply elem_of_cons in Hin as [?|Hin]; done.
  - exfalso. unfold bind, raise in Hbody. injection Hbody as _ <-.
    rewrite Htr2 in Htr. apply app_inv_head in Htr as <-. done.
  - exfalso. unfold bind, log, write_fs, raise in Hbody. simpl in Hbody.
    injection Hbody as _ <-. simpl in Htr2. rewrite Htr2, <- app_assoc in Htr.
    apply app_inv_head in Htr as <-.
    apply elem_of_cons in Hin as [?|Hin]; done.
Qed.

Lemma concatenation_touches_manifest_and_destination_witness :
  exists w' evs,
    concatenate_segments Scenarios.healthy_env [SegmentFinal 1]
      (World {[SegmentFinal 1 := Scenarios.media 12]} (Flags false false) [])
    = Some (Ok true, w')
    /\ fs w' !! SegmentFinal 1 = Some (Scenarios.media 12)
    /\ trace w' = evs /\ Forall concat_event evs.
Proof.
  assert (Hrun : is_Some (concatenate_segments Scenarios.healthy_env [SegmentFinal 1]
                   (World {[SegmentFinal 1 := Scenarios.media 12]}
                      (Flags false false) [])))
    by (vm_compute; eauto).
  destruct Hrun as [[r w'] Hrun].
  destruct (concatenation_touches_manifest_and_destination _ _ _ _ _ Hrun)
    as (Hfs & evs & Htr & Hevs & _).
  exists w', evs. split; [|split; [|split; [exact Htr | exact Hevs]]].
  - rewrite Hrun. vm_compute in Hrun. by injection Hrun as <- _.
  - by rewrite Hfs.
Defined.

(** *** The final outcome *)

Lemma lookup_outside_segments_dir (m : gmap path file) p :
  filter (fun entry : path * file => in_segments_dir entry.1 = false) m !! p
  = if in_segments_dir p then None else m !! p.
Proof.
  rewrite map_lookup_filter. destruct (m !! p) as [f|]; simpl;
    [|by destruct (in_segments_dir p)].
  destruct (in_segments_dir p) eqn:Hp; simpl; reflexivity.
Qed.

Lemma remove_segments_dir_frame e :
  guarantees (changes (fun ev => ev = EvWarn \/ ev = EvRmtree)
                (fun p => in_segments_dir p = true)) (remove_segments_dir e).
Proof.
  unfold remove_segments_dir. repeat guarantee_step; [by left|by right|].
  apply guarantees_write_fs. intros m p Hp. rewrite lookup_outside_segments_dir.
  by destruct (in_segments_dir p).
Qed.




(** *** The whole run *)

Lemma final_outcome_frame c e segs completed :
  guarantees (changes (fun _ => True) (fun p => p <> InputFile))
    (final_outcome c e segs completed).
Proof.
  unfold final_outcome.
  apply guarantees_bind; [apply guarantees_read_flags|intros fl].
  destruct (stop_requested fl); [apply guarantees_sys_exit|].
  destruct (length completed =? length segs)%nat; [|apply guarantees_sys_exit].
  apply guarantees_bind; [by apply guarantees_log|intros _].
  apply guarantees_bind.
  { intros w r w' H. apply concatenate_segments_frame in H. revert H.
    apply changes_weaken; [done|]. by intros p [-> | ->]. }
  intros [|]; [|apply guarantees_sys_exit].
  destruct (keep_segments c); [apply guarantees_ret|].
  intros w r w' H. apply remove_segments_dir_frame in H. revert H.
  apply changes_weaken; [done|]. by intros [].
Qed.




End OutcomeFacts.

(** ** Whole runs *)

Module RunFacts.
Import Planner Probe Effects Supervisor Controller Observations.
Import PlannerFacts EffectsFacts SupervisorFacts ControllerFacts.
Import PlanShape SupervisorCalm ResumeFacts LoopFacts StartupFacts OutcomeFacts.
#[local] Open Scope M_scope.











(** *** Replacing an existing destination *)

Lemma main_process_from_prepare c e w prepared w1 :
  prepare c e (World (fs w) (deliver (signals_at_startup e) (cancellation w))
                 (trace w)) = Some (Ok prepared, w1) ->
  main_process c e w
  = bind (after_prepare c e prepared.2) (fun st => final_outcome c e st.1 st.2) w1.
Proof.
  intros Hprep. unfold main_process. rewrite encode_phase_unfold.
  unfold bind, signals_arrive. by rewrite Hprep.
Qed.

Lemma rest_of_run_changes c e d :
  guarantees (changes (fun _ => True) (fun p => p <> InputFile))
    (bind (after_prepare c e d) (fun st => final_outcome c e st.1 st.2)).
Proof.
  apply guarantees_bind; [|intros st; apply final_outcome_frame].
  intros w r w' H. apply after_prepare_changes in H. revert H.
  apply changes_weaken; [done|]. by intros [].
Qed.

(** X18: with [--overwrite-final-output], a usable segments directory and an
    input of positive duration, an existing destination is looked at once
    the input was probed; if it cannot be deleted the run exits with status
    1 and the destination stays, otherwise it is deleted at once, before
    anything else is done. *)
Theorem overwrite_deletes_destination_first c e w f r w' :
  overwrite_final_output c = true -> fs w !! FinalOutput = Some f ->
  segments_dir_available e w ->
  0 < get_file_duration (fs w !! InputFile) ->
  main_process c e w = Some (r, w') ->
  exists pre post,
    trace w' = trace w ++ pre ++ EvExists FinalOutput :: post
    /\ Forall probing_event pre
    /\ (output_unlink_fails e = true ->
        r = Exit 1 /\ post = [] /\ fs w' !! FinalOutput = Some f)
    /\ (output_unlink_fails e = false ->
        exists rest, post = EvUnlink FinalOutput :: rest).
Proof.
  intros Hover Hf Hav Hpos Hrun.
  set (w0 := World (fs w) (deliver (signals_at_startup e) (cancellation w))
               (trace w)) in *.
  destruct (prepare_reaches_check c e w0 Hav)
    as (w4 & pre & audio & Htr4 & Hpre & _ & Hfs4 & Hprep).
  simpl in Htr4, Hprep.
  destruct (Qlt_le_dec 0 (get_file_duration (fs w !! InputFile))); [|lra].
  assert (Hf4 : fs w4 !! FinalOutput = Some f).
  { rewrite Hfs4 by (by intros [?|?]). done. }
  revert Hprep.
  unfold check_final_output, path_exists. unfold bind at 1. unfold bind at 1.
  unfold bind at 1. unfold log at 1. unfold bind at 1. unfold read_fs at 1.
  unfold ret at 1. simpl. rewrite Hf4, bool_decide_eq_true_2 by eauto.
  rewrite Hover. intros Hprep. exists pre.
  destruct (output_unlink_fails e) eqn:Hfail.
  - unfold sys_exit in Hprep.
    rewrite (encode_phase_stops_at_prepare _ _ _ _ _ Hprep) in Hrun.
    injection Hrun as <- <-. exists []. simpl.
    split; [by rewrite Htr4, <- app_assoc|]. split; [done|]. split; [done|done].
  - unfold bind, log, write_fs, ret in Hprep. simpl in Hprep.
    rewrite (main_process_from_prepare _ _ _ _ _ Hprep) in Hrun.
    apply rest_of_run_changes in Hrun as ((post & Htr & _) & _). simpl in Htr.
    exists (EvUnlink FinalOutput :: post).
    split; [|split; [done|split; [done|by eauto]]].
    rewrite Htr, Htr4, <- !app_assoc. done.
Qed.

Lemma overwrite_deletes_destination_first_witness :
  exists w' pre post,
    main_process (Config H265 0 false 5 false true) Scenarios.healthy_env
      Scenarios.finished_world = Some (Ok tt, w')
    /\ trace w' = pre ++ EvExists FinalOutput :: post
    /\ exists rest, post = EvUnlink FinalOutput :: rest.
Proof.
  assert (Hrun : exists w',
             main_process (Config H265 0 false 5 false true) Scenarios.healthy_env
               Scenarios.finished_world = Some (Ok tt, w')).
  { eexists. vm_compute. reflexivity. }
  destruct Hrun as (w' & Hrun).
  destruct (overwrite_deletes_destination_first
              (Config H265 0 false 5 false true) Scenarios.healthy_env
              Scenarios.finished_world (Scenarios.media 12) (Ok tt) w')
    as (pre & post & Htr & _ & _ & Hpost);
    [reflexivity | reflexivity | split; [reflexivity|by left] | by vm_compute
    | exact Hrun |].
  exists w', pre, post. split; [exact Hrun|]. split; [exact Htr|]. by apply Hpost.
Defined.

(** *** A stop request while a segment is encoded *)





End RunFacts.

(** ** Gap filling *)

Module PrepareSequenceFacts.
Import PrepareSequence.
Import String.StringSyntax.
#[local] Open Scope string_scope.
#[local] Open Scope Z_scope.

Lemma insert_by_index_perm x l : insert_by_index x l ≡ₚ x :: l.
Proof.
  induction l as [|y l IH]; simpl; [done|].
  destruct (x.1 <=? y.1); [done|]. rewrite IH. apply Permutation_swap.
Qed.

Lemma sort_by_index_perm l : sort_by_index l ≡ₚ l.
Proof.
  induction l as [|x l IH]; simpl; [done|].
  by rewrite insert_by_index_perm, IH.
Qed.

Lemma insert_by_index_sorted x l :
  StronglySorted (fun a b : frame => a.1 <= b.1) l ->
  StronglySorted (fun a b : frame => a.1 <= b.1) (insert_by_index x l).
Proof.
  induction 1 as [|y l Hl IH Hy]; simpl; [repeat constructor|].
  destruct (Z.leb_spec x.1 y.1) as [Hle|Hgt].
  - constructor; [by constructor|]. constructor; [done|].
    eapply Forall_impl; [exact Hy|]. simpl. intros. lia.
  - constructor; [done|]. rewrite insert_by_index_perm.
    constructor; [lia|done].
Qed.

Lemma sort_by_index_sorted l :
  StronglySorted (fun a b : frame => a.1 <= b.1) (sort_by_index l).
Proof.
  induction l as [|x l IH]; simpl; [constructor|by apply insert_by_index_sorted].
Qed.

(** With distinct indices the sorted frames ascend strictly. *)
Lemma sorted_distinct_ascending (l : list frame) :
  StronglySorted (fun a b : frame => a.1 <= b.1) l -> NoDup l.*1 ->
  forall prev, Forall (fun x : frame => prev < x.1) l -> ascending prev l.
Proof.
  induction 1 as [|x l Hl IH Hx]; intros Hnd prev Hprev; simpl; [done|].
  apply NoDup_cons in Hnd as [Hnotin Hnd].
  apply Forall_cons in Hprev as [Hpx _]. split; [done|].
  apply IH; [done|]. rewrite Forall_forall in Hx |- *. intros y Hy.
  assert (x.1 <> y.1).
  { intros Heq. apply Hnotin. rewrite Heq. by apply list_elem_of_fmap_2. }
  specialize (Hx y Hy). simpl in Hx. lia.
Qed.

Lemma fill_indices n pf o :
  copy_index <$> fill n pf o = (fun k : nat => o + Z.of_nat k) <$> seq 0 n.
Proof.
  revert o. induction n as [|n IH]; intros o; simpl; [done|].
  rewrite IH. f_equal; [f_equal; lia|].
  rewrite <- (fmap_S_seq 0 n), <- list_fmap_compose.
  apply list_fmap_ext. intros _ k _. simpl. lia.
Qed.

Lemma fill_length n pf o : length (fill n pf o) = n.
Proof. revert o. induction n as [|n IH]; intros o; simpl; [done|]. by rewrite IH. Qed.

Lemma fill_sources n pf o : copy_source <$> fill n pf o = replicate n pf.
Proof. revert o. induction n as [|n IH]; intros o; simpl; [done|]. by rewrite IH. Qed.

(** The copies of the loop are numbered from [out_idx] on without a gap,
    and the final [out_idx] is the next free number. *)
Lemma copy_loop_numbering thresh valid : forall prev pf o copies last,
  copy_loop thresh prev pf o valid = (copies, last) ->
  copy_index <$> copies
  = (fun k : nat => o + Z.of_nat k) <$> seq 0 (length copies)
  /\ last = o + Z.of_nat (length copies).
Proof.
  induction valid as [|[idx fn] rest IH]; intros prev pf o copies last; simpl.
  - intros [= <- <-]. simpl. split; [done|lia].
  - destruct (copy_loop thresh idx fn
                (o + Z.of_nat (missing_frames thresh (idx - prev)) + 1) rest)
      as [cs l] eqn:Hrest.
    intros [= <- <-]. destruct (IH _ _ _ _ _ Hrest) as [Hidx ->].
    set (m := missing_frames thresh (idx - prev)) in *.
    rewrite fmap_app, fmap_cons, Hidx, fill_indices, length_app, fill_length.
    cbn [copy_index length]. split; [|lia].
    rewrite seq_app, fmap_app. f_equal. rewrite <- cons_seq, fmap_cons.
    f_equal.
    replace (seq (S (0 + m)) (length cs))
      with (Nat.add (S m) <$> seq 0 (length cs))
      by (rewrite fmap_add_seq; f_equal; lia).
    rewrite <- !list_fmap_compose.
    apply list_fmap_ext. intros _ k _. simpl. lia.
Qed.

Lemma copy_loop_sources thresh valid : forall prev pf o copies last,
  copy_loop thresh prev pf o valid = (copies, last) ->
  valid.*2 `sublist_of` copy_source <$> copies
  /\ Forall (fun s => s = pf \/ s ∈ valid.*2) (copy_source <$> copies)
  /\ (dense thresh prev valid -> copy_source <$> copies = valid.*2).
Proof.
  induction valid as [|[idx fn] rest IH]; intros prev pf o copies last; simpl.
  - intros [= <- <-]. simpl. split; [constructor|]. split; [constructor|done].
  - destruct (copy_loop thresh idx fn
                (o + Z.of_nat (missing_frames thresh (idx - prev)) + 1) rest)
      as [cs l] eqn:Hrest.
    intros [= <- <-]. destruct (IH _ _ _ _ _ Hrest) as (Hsub & Hall & Hdense).
    rewrite fmap_app, fmap_cons, fill_sources. cbn [copy_source].
    split; [|split].
    + apply sublist_inserts_l. by apply sublist_skip.
    + apply Forall_app. split.
      * apply Forall_forall. intros s Hs%elem_of_replicate. left. by destruct Hs.
      * apply Forall_cons. split; [right; apply list_elem_of_here|].
        eapply Forall_impl; [exact Hall|]. simpl. intros s [->|Hs]; right.
        -- apply list_elem_of_here.
        -- by apply list_elem_of_further.
    + intros [Hgap Hrest']. unfold missing_frames.
      destruct (Z.ltb_spec thresh (idx - prev)); [lia|]. simpl.
      by rewrite Hdense.
Qed.

Lemma copy_loop_spaced thresh valid : thresh <= 0 -> forall prev pf o copies last,
  ascending prev valid ->
  copy_loop thresh prev pf o valid = (copies, last) ->
  (forall x, x ∈ valid -> Copy x.2 (o + (x.1 - prev) - 1) ∈ copies)
  /\ last = o + (default prev (fst <$> list.last valid) - prev).
Proof.
  intros Hthresh.
  induction valid as [|[idx fn] rest IH]; intros prev pf o copies last; simpl.
  - intros _ [= <- <-]. split; [by intros x Hx%elem_of_nil|lia].
  - intros [Hgt Hasc].
    destruct (copy_loop thresh idx fn
                (o + Z.of_nat (missing_frames thresh (idx - prev)) + 1) rest)
      as [cs l] eqn:Hrest.
    intros [= <- <-].
    assert (Hm : Z.of_nat (missing_frames thresh (idx - prev)) = idx - prev - 1).
    { unfold missing_frames. destruct (Z.ltb_spec thresh (idx - prev)); lia. }
    destruct (IH _ _ _ _ _ Hasc Hrest) as [Hpos ->]. rewrite Hm in *.
    split.
    + intros x [->|Hx]%elem_of_cons; apply elem_of_app; right.
      * simpl. replace (o + (idx - prev) - 1) with (o + (idx - prev - 1)) by lia.
        apply list_elem_of_here.
      * apply list_elem_of_further. specialize (Hpos x Hx).
        by replace (o + (x.1 - prev) - 1)
          with (o + (idx - prev - 1) + 1 + (x.1 - idx) - 1) by lia.
    + destruct rest as [|y rest2]; simpl; [lia|].
      destruct (list.last (y :: rest2)) as [z|] eqn:Hz; [simpl; lia|].
      by apply last_None in Hz.
Qed.

Lemma shifted_indices (o : Z) (j n : nat) :
  o = Z.of_nat j ->
  (fun k : nat => o + Z.of_nat k) <$> seq 0 n = Z.of_nat <$> seq j n.
Proof.
  intros ->.
  replace (seq j n) with (Nat.add j <$> seq 0 n)
    by (rewrite fmap_add_seq; f_equal; lia).
  rewrite <- list_fmap_compose. apply list_fmap_ext. intros _ k _. simpl. lia.
Qed.

(** X20: [prepare_sequence.py] exits with status 1 when there is no valid
    file; otherwise the copies are numbered 1, 2, ..., total without a gap in
    the order they are made, and there are at least as many copies as input
    frames. *)
Theorem output_numbered_without_gaps thresh valid :
  (valid = [] -> main thresh valid = None)
  /\ (valid <> [] ->
      exists copies total,
        main thresh valid = Some (copies, total)
        /\ total = Z.of_nat (length copies)
        /\ copy_index <$> copies = Z.of_nat <$> seq 1 (length copies)
        /\ (length valid <= length copies)%nat).
Proof.
  split; [by intros ->|]. intros Hne. unfold main.
  pose proof (sort_by_index_perm valid) as Hperm.
  destruct (sort_by_index valid) as [|[first fn] rest] eqn:Hsort.
  { symmetry in Hperm. by apply Permutation_nil_r in Hperm. }
  destruct (copy_loop thresh first fn 2 rest) as [cs out_idx] eqn:Hloop.
  destruct (copy_loop_numbering _ _ _ _ _ _ _ Hloop) as [Hidx ->].
  destruct (copy_loop_sources _ _ _ _ _ _ _ Hloop) as (Hsub & _).
  eexists _, _. split; [reflexivity|]. cbn [length].
  split; [lia|]. split.
  - rewrite fmap_cons, Hidx. cbn [copy_index]. rewrite <- cons_seq, fmap_cons.
    f_equal. by apply shifted_indices.
  - rewrite <- Hperm. cbn [length]. apply sublist_length in Hsub.
    rewrite !length_fmap in Hsub. by apply le_n_S.
Qed.

(** X21: the frames are taken in the order of their indices (a stable sort
    of the input), every input frame is copied, in that order, and every
    copy is a copy of an input frame. *)
Theorem frames_kept_in_index_order thresh valid copies total :
  main thresh valid = Some (copies, total) ->
  sort_by_index valid ≡ₚ valid
  /\ StronglySorted (fun a b : frame => a.1 <= b.1) (sort_by_index valid)
  /\ (sort_by_index valid).*2 `sublist_of` copy_source <$> copies
  /\ Forall (fun s => s ∈ valid.*2) (copy_source <$> copies).
Proof.
  unfold main. intros Hmain.
  pose proof (sort_by_index_perm valid) as Hperm.
  split; [done|]. split; [apply sort_by_index_sorted|].
  destruct (sort_by_index valid) as [|[first fn] rest] eqn:Hsort; [done|].
  destruct (copy_loop thresh first fn 2 rest) as [cs out_idx] eqn:Hloop.
  injection Hmain as <- <-.
  destruct (copy_loop_sources _ _ _ _ _ _ _ Hloop) as (Hsub & Hall & _).
  rewrite !fmap_cons. cbn [copy_source snd]. split; [by apply sublist_skip|].
  assert (Hin : forall s, s ∈ ((first, fn) :: rest).*2 -> s ∈ valid.*2).
  { intros s Hs. by rewrite <- Hperm. }
  apply Forall_cons. split; [apply Hin, list_elem_of_here|].
  eapply Forall_impl; [exact Hall|]. simpl. intros s [->|Hs]; apply Hin.
  - apply list_elem_of_here.
  - by apply list_elem_of_further.
Qed.

Lemma frames_kept_in_index_order_witness :
  exists copies total,
    main 5 [(9, "9.png"); (1, "1.png")] = Some (copies, total)
    /\ ["1.png"; "9.png"] `sublist_of` copy_source <$> copies.
Proof.
  assert (Hrun : is_Some (main 5 [(9, "9.png"); (1, "1.png")]))
    by (vm_compute; eauto).
  destruct Hrun as [[copies total] Hrun]. exists copies, total.
  split; [exact Hrun|].
  by destruct (frames_kept_in_index_order _ _ _ _ Hrun) as (_ & _ & Hsub & _).
Defined.

(** X22: with a threshold of 0 or less and distinct indices the output
    follows the indices: the frame with index [i] is copied to number
    [i - first + 1] and the total is [last - first + 1], where [first] and
    [last] are the least and the greatest index. *)
Theorem threshold_0_output_follows_indices thresh valid copies total :
  thresh <= 0 -> NoDup valid.*1 ->
  main thresh valid = Some (copies, total) ->
  exists first last,
    first ∈ valid.*1 /\ last ∈ valid.*1
    /\ (forall x, x ∈ valid -> first <= x.1 <= last)
    /\ total = last - first + 1
    /\ forall x, x ∈ valid -> Copy x.2 (x.1 - first + 1) ∈ copies.
Proof.
  intros Hthresh Hnd. unfold main. intros Hmain.
  pose proof (sort_by_index_perm valid) as Hperm.
  pose proof (sort_by_index_sorted valid) as Hsorted.
  destruct (sort_by_index valid) as [|[first fn] rest] eqn:Hsort; [done|].
  destruct (copy_loop thresh first fn 2 rest) as [cs out_idx] eqn:Hloop.
  injection Hmain as <- <-.
  assert (Hnd' : NoDup ((first, fn) :: rest).*1) by by rewrite Hperm.
  apply StronglySorted_inv in Hsorted as [Hsorted Hfirst].
  rewrite fmap_cons in Hnd'. apply NoDup_cons in Hnd' as [Hnotin Hnd'].
  assert (Hgt : Forall (fun x : frame => first < x.1) rest).
  { rewrite Forall_forall in Hfirst |- *. intros y Hy.
    assert (first <> y.1).
    { intros Heq. apply Hnotin. simpl. rewrite Heq.
      by apply (list_elem_of_fmap_2 fst). }
    specialize (Hfirst y Hy). simpl in Hfirst. lia. }
  pose proof (sorted_distinct_ascending rest Hsorted Hnd' first Hgt) as Hasc.
  destruct (copy_loop_spaced thresh rest Hthresh _ _ _ _ _ Hasc Hloop) as [Hpos ->].
  set (last := default first (fst <$> list.last rest)).
  assert (Hlast : last ∈ ((first, fn) :: rest).*1
                  /\ forall x, x ∈ rest -> x.1 <= last).
  { unfold last. destruct (list.last rest) as [y|] eqn:Hy; simpl.
    - split.
      + rewrite ?fmap_cons. apply list_elem_of_further, (list_elem_of_fmap_2 fst).
        by apply last_Some_elem_of.
      + intros x Hx. apply last_Some in Hy as [l2 ->].
        apply elem_of_app in Hx as [Hx|Hx%list_elem_of_singleton]; [|subst; lia].
        clear -Hsorted Hx. induction l2 as [|z l2 IH]; [by apply elem_of_nil in Hx|].
        simpl in Hsorted. apply StronglySorted_inv in Hsorted as [Hs Hz].
        apply elem_of_cons in Hx as [->|Hx]; [|by apply IH].
        rewrite Forall_forall in Hz. apply (Hz y). apply elem_of_app. right.
        apply list_elem_of_here.
    - split; [rewrite ?fmap_cons; apply list_elem_of_here|].
      apply last_None in Hy as ->. by intros x Hx%elem_of_nil. }
  destruct Hlast as [Hlast_in Hlast_max].
  assert (Hin : forall x, x ∈ valid -> x ∈ (first, fn) :: rest)
    by (intros x Hx; by rewrite Hperm).
  exists first, last.
  split; [rewrite <- Hperm, fmap_cons; apply list_elem_of_here|].
  split; [by rewrite <- Hperm|].
  split.
  { intros x [->|Hx]%Hin%elem_of_cons; simpl.
    - split; [lia|]. destruct rest as [|y rest2]; [unfold last; simpl; lia|].
      assert (first < y.1).
      { rewrite Forall_forall in Hgt. apply Hgt, list_elem_of_here. }
      specialize (Hlast_max y (list_elem_of_here _ _)). lia.
    - rewrite Forall_forall in Hgt. specialize (Hgt x Hx). simpl in Hgt.
      specialize (Hlast_max x Hx). lia. }
  split; [lia|].
  intros x [->|Hx]%Hin%elem_of_cons; simpl.
  - replace (first - first + 1) with 1 by lia. apply list_elem_of_here.
  - apply list_elem_of_further. specialize (Hpos x Hx).
    by replace (x.1 - first + 1) with (2 + (x.1 - first) - 1) by lia.
Qed.

Lemma threshold_0_output_follows_indices_witness :
  exists first last,
    first ∈ [4; 1] /\ last ∈ [4; 1]
    /\ 4 = last - first + 1.
Proof.
  destruct (threshold_0_output_follows_indices 0 [(4, "4.png"); (1, "1.png")]
              [Copy "1.png" 1; Copy "1.png" 2; Copy "1.png" 3; Copy "4.png" 4] 4)
    as (first & last & Hf & Hl & _ & Htotal & _).
  - lia.
  - by apply (bool_decide_unpack _).
  - reflexivity.
  - exists first, last. split; [exact Hf|]. split; [exact Hl | exact Htotal].
Defined.

(** X23: when no two neighbouring indices are more than the threshold apart
    nothing is duplicated: the output is the input in index order,
    renumbered 1 .. n. *)
Theorem small_gaps_are_only_renumbered thresh valid first rest :
  sort_by_index valid = first :: rest -> dense thresh first.1 rest ->
  exists copies,
    main thresh valid = Some (copies, Z.of_nat (length valid))
    /\ copy_source <$> copies = (first :: rest).*2
    /\ copy_index <$> copies = Z.of_nat <$> seq 1 (length valid).
Proof.
  intros Hsort Hdense. unfold main. rewrite Hsort. destruct first as [first fn].
  destruct (copy_loop thresh first fn 2 rest) as [cs out_idx] eqn:Hloop.
  destruct (copy_loop_numbering _ _ _ _ _ _ _ Hloop) as [Hidx ->].
  destruct (copy_loop_sources _ _ _ _ _ _ _ Hloop) as (_ & _ & Hsrc).
  specialize (Hsrc Hdense).
  assert (Hlen : length valid = S (length cs)).
  { rewrite <- (sort_by_index_perm valid), Hsort. cbn [length]. f_equal.
    by rewrite <- (length_fmap copy_source cs), Hsrc, length_fmap. }
  eexists. split; [f_equal; f_equal; lia|]. split.
  - rewrite !fmap_cons. cbn [copy_source snd]. by rewrite Hsrc.
  - rewrite Hlen, fmap_cons, Hidx. cbn [copy_index]. rewrite <- cons_seq, fmap_cons.
    f_equal. by apply shifted_indices.
Qed.

Lemma small_gaps_are_only_renumbered_witness :
  exists copies,
    main 5 [(7, "7.png"); (3, "3.png")] = Some (copies, 2)
    /\ copy_source <$> copies = ["3.png"; "7.png"]
    /\ copy_index <$> copies = [1; 2].
Proof.
  apply (small_gaps_are_only_renumbered 5 [(7, "7.png"); (3, "3.png")]
           (3, "3.png") [(7, "7.png")]).
  - reflexivity.
  - simpl. split; [lia|exact I].
Defined.

End PrepareSequenceFacts.

(** ** Re-timing *)

Module RetimeSequenceFacts.
Import PrepareSequence PrepareSequenceFacts RetimeSequence.
Import String.StringSyntax.
#[local] Open Scope string_scope.




#[local] Open Scope Z_scope.





(** *** Pace 1 *)

Lemma py_round_integer (z : Z) : py_round (inject_Z z / inject_Z 1) = z.
Proof.
  assert (Hq : (inject_Z z / inject_Z 1 == inject_Z z)%Q) by (by field).
  unfold py_round. rewrite (Qfloor_comp _ _ Hq), Qfloor_Z.
  set (q := (inject_Z z / inject_Z 1)%Q) in *.
  destruct (Qcompare (q - inject_Z z) (1 # 2)) eqn:Hcmp; [|done|].
  - apply Qeq_alt in Hcmp. lra.
  - apply Qgt_alt in Hcmp. lra.
Qed.

Lemma retime_loop_pace_1 frames : forall prev pf o,
  ascending prev frames ->
  retime_loop 1 prev pf o frames = copy_loop 0 prev pf o frames.
Proof.
  induction frames as [|[idx fn] rest IH]; intros prev pf o; simpl; [done|].
  intros [Hgt Hasc].
  destruct (Z.ltb_spec (idx - prev) 0); [lia|].
  destruct (Z.eqb_spec (idx - prev) 0); [lia|]. simpl.
  unfold num_output_steps, missing_frames. rewrite py_round_integer.
  destruct (Z.ltb_spec 0 (idx - prev)); [|lia].
  rewrite Z.max_r by lia.
  destruct (Z.ltb_spec 1 (idx - prev)).
  - by rewrite IH.
  - assert (idx - prev = 1) as -> by lia. simpl. by rewrite IH.
Qed.

(** X26: on frames with distinct numbers, re-timing with pace 1 makes the
    same copies as [prepare_sequence.py] with threshold 0. *)
Theorem pace_1_is_gap_filling_with_threshold_0 (frames : list frame) :
  NoDup frames.*1 ->
  retime_image_sequence 1 frames = main 0 frames.
Proof.
  intros Hnd. unfold retime_image_sequence, main. simpl.
  pose proof (sort_by_index_perm frames) as Hperm.
  pose proof (sort_by_index_sorted frames) as Hsorted.
  destruct (sort_by_index frames) as [|[first fn] rest] eqn:Hsort; [done|].
  assert (Hnd' : NoDup ((first, fn) :: rest).*1) by by rewrite Hperm.
  apply StronglySorted_inv in Hsorted as [Hsorted Hfirst].
  rewrite fmap_cons in Hnd'. apply NoDup_cons in Hnd' as [Hnotin Hnd'].
  assert (Hgt : Forall (fun x : frame => first < x.1) rest).
  { rewrite Forall_forall in Hfirst |- *. intros y Hy.
    assert (first <> y.1).
    { intros Heq. apply Hnotin. simpl. rewrite Heq.
      by apply (list_elem_of_fmap_2 fst). }
    specialize (Hfirst y Hy). simpl in Hfirst. lia. }
  by rewrite (retime_loop_pace_1 rest first fn 2
                (sorted_distinct_ascending rest Hsorted Hnd' first Hgt)).
Qed.

Lemma pace_1_is_gap_filling_with_threshold_0_witness :
  retime_image_sequence 1 [(4, "4.png"); (1, "1.png")]
  = Some ([Copy "1.png" 1; Copy "1.png" 2; Copy "1.png" 3; Copy "4.png" 4], 4).
Proof.
  rewrite (pace_1_is_gap_filling_with_threshold_0 [(4, "4.png"); (1, "1.png")]).
  - reflexivity.
  - by apply (bool_decide_unpack _).
Defined.

End RetimeSequenceFacts.
